(** * Atom-centred symmetry functions and feature scaling

    A shallow embedding of the hand-written numerical code of the tutorial
    notebooks: the dimer notebook ([fcut], [G1f], the [acsf] matrix and its
    standardisation), the trimer notebook ([fcut], [G0], [G1f], [G1], [G4f],
    [G4]) and the energy-prediction notebook (train/validation split and
    feature scaling).

    Python floats are modelled by the real numbers [R]: [math.cos],
    [math.exp] and [numpy.linalg.norm] are [cos], [exp] and the Euclidean
    norm.  Rounding, overflow and NaN are outside this model; the module
    [Binary64] follows the loop of [G4] on binary64 numbers to show
    where overflow and underflow take the code.  Python
    exceptions are values of [error]; a division whose divisor is zero is
    reported as [ZeroDivisionError] so that the absence of such divisions
    can be stated (numpy itself would produce inf or nan with a warning). *)

From Stdlib Require Import Reals Lra Lia List ZArith Bool Arith Permutation.
Import ListNotations.
Open Scope R_scope.

(** ** Exceptions *)

Inductive error : Type :=
| IndexError
| ZeroDivisionError
| ValueError.

Definition result (A : Type) : Type := (error + A)%type.

Definition ret {A : Type} (a : A) : result A := inr a.

Definition raise {A : Type} (e : error) : result A := inl e.

Definition bind {A B : Type} (m : result A) (f : A -> result B) : result B :=
  match m with
  | inl e => inl e
  | inr a => f a
  end.

Notation "x <- m ;; k" := (bind m (fun x => k))
  (at level 61, m at next level, right associativity).
Notation "' pat <- m ;; k" := (bind m (fun x => match x with pat => k end))
  (at level 61, pat pattern, m at next level, right associativity).

(** [for a in l: s = body(a, s)], stopping at the first exception. *)
Fixpoint for_ {A S : Type} (l : list A) (body : A -> S -> result S) (s : S)
  : result S :=
  match l with
  | [] => ret s
  | a :: l' => s' <- body a s ;; for_ l' body s'
  end.

Definition range (n : nat) : list nat := seq 0 n.

(** ** Lists as one-dimensional arrays *)

Definition getitem {A : Type} (l : list A) (i : nat) : result A :=
  match nth_error l i with
  | Some a => ret a
  | None => raise IndexError
  end.

Fixpoint list_set {A : Type} (l : list A) (i : nat) (v : A) : list A :=
  match l, i with
  | [], _ => []
  | _ :: l', O => v :: l'
  | a :: l', S i' => a :: list_set l' i' v
  end.

Definition setitem {A : Type} (l : list A) (i : nat) (v : A)
  : result (list A) :=
  if (i <? length l)%nat then ret (list_set l i v) else raise IndexError.

(** [a[i] += v] *)
Definition iadd1 (a : list R) (i : nat) (v : R) : result (list R) :=
  x <- getitem a i ;; setitem a i (x + v).

Definition zeros (n : nat) : list R := repeat 0 n.

Fixpoint Rsum (l : list R) : R :=
  match l with
  | [] => 0
  | x :: l' => x + Rsum l'
  end.

(** ** Two-dimensional arrays

    A two-dimensional numpy array keeps its shape even when it has no
    rows, so the number of columns is stored next to the rows. *)

Record ndarray : Type := mk_ndarray { ncols : nat; rows : list (list R) }.

Definition nrows (M : ndarray) : nat := length (rows M).

Definition zeros2 (n m : nat) : ndarray :=
  {| ncols := m; rows := repeat (repeat 0 m) n |}.

Definition get2 (M : ndarray) (i k : nat) : result R :=
  row <- getitem (rows M) i ;; getitem row k.

(** [M[i,k] = v] *)
Definition set2 (M : ndarray) (i k : nat) (v : R) : result ndarray :=
  row <- getitem (rows M) i ;;
  row' <- setitem row k v ;;
  rows' <- setitem (rows M) i row' ;;
  ret {| ncols := ncols M; rows := rows' |}.

(** [M[i,k] += v] *)
Definition iadd2 (M : ndarray) (i k : nat) (v : R) : result ndarray :=
  x <- get2 M i k ;; set2 M i k (x + v).

(** The value read at [M[i,k]], with 0 outside the array (used in
    statements only). *)
Definition entry (M : ndarray) (i k : nat) : R :=
  nth k (nth i (rows M) []) 0.

(** [M[:,a]] *)
Definition column (M : ndarray) (a : nat) : list R :=
  map (fun row => nth a row 0) (rows M).

Fixpoint list_upd (l : list R) (i : nat) (f : R -> R) : list R :=
  match l, i with
  | [], _ => []
  | x :: l', O => f x :: l'
  | x :: l', S i' => x :: list_upd l' i' f
  end.

(** [M[:,a] -= c] *)
Definition col_isub (M : ndarray) (a : nat) (c : R) : result ndarray :=
  if (a <? ncols M)%nat
  then ret {| ncols := ncols M;
              rows := map (fun row => list_upd row a (fun x => x - c)) (rows M) |}
  else raise IndexError.

(** [M[:,a] /= c] *)
Definition col_idiv (M : ndarray) (a : nat) (c : R) : result ndarray :=
  if (a <? ncols M)%nat
  then if Req_dec_T c 0
       then raise ZeroDivisionError
       else ret {| ncols := ncols M;
                   rows := map (fun row => list_upd row a (fun x => x / c)) (rows M) |}
  else raise IndexError.

(** [numpy.mean] and [numpy.std] of a one-dimensional array.  For an
    empty array numpy returns nan; the quotient is [0 / 0] here. *)
Definition mean (l : list R) : R := Rsum l / INR (length l).

Definition std (l : list R) : R :=
  sqrt (mean (map (fun x => Rsqr (Rabs (x - mean l))) l)).

(** [numpy.mean(M, axis=0)] and [numpy.std(M, axis=0)]. *)
Definition mean_axis0 (M : ndarray) : list R :=
  map (fun a => mean (column M a)) (range (ncols M)).

Definition std_axis0 (M : ndarray) : list R :=
  map (fun a => std (column M a)) (range (ncols M)).

(** ** Rows of a coordinate array *)

Record vec3 : Type := mk_vec3 { vx : R; vy : R; vz : R }.

Definition vsub (u v : vec3) : vec3 :=
  {| vx := vx u - vx v; vy := vy u - vy v; vz := vz u - vz v |}.

(** [numpy.dot] *)
Definition dot (u v : vec3) : R := vx u * vx v + vy u * vy v + vz u * vz v.

(** [numpy.linalg.norm] *)
Definition norm (u : vec3) : R := sqrt (dot u u).

(** ** [math.pow] and checked division *)

(** The exponents of the notebooks are Python integers.  [math.pow]
    raises [ValueError] for a zero base and a negative exponent. *)
Definition math_pow (x : R) (y : Z) : result R :=
  if Req_dec_T x 0
  then if (y <? 0)%Z then raise ValueError else ret (powerRZ x y)
  else ret (powerRZ x y).

Definition div (x y : R) : result R :=
  if Req_dec_T y 0 then raise ZeroDivisionError else ret (x / y).

(** ** The cutoff radius, [Rcut = 5.0] in both ACSF notebooks *)

Definition Rcut : R := 5.0.

(** ** The dimer notebook *)

Module Dimer.

Definition fcut (r : R) : R :=
  if Rge_dec r Rcut then 0
  else (cos (PI * r / Rcut) + 1) * 0.5.

Definition G1f (r eta Rs : R) : R :=
  exp (- eta * (r - Rs) * (r - Rs)) * fcut r.

(** [numpy.arange(start, stop, step)]: [ceil((stop - start) / step)]
    values [start + i * step]. *)
Definition ceil (x : R) : Z := (- Int_part (- x))%Z.

Definition arange (start stop step : R) : list R :=
  map (fun i => start + INR i * step)
      (range (Z.to_nat (ceil ((stop - start) / step)))).

Definition dists : list R := arange 1.95 Rcut (Rcut / 30).

Definition params : list (R * R) := [(0.4, 0.2); (0.4, 0.5)].

(** The cell that allocates [acsf] and fills it, one row per
    configuration. *)
Definition acsf_fill (dists : list R) (params : list (R * R))
  : result ndarray :=
  let nConfs := length dists in
  let acsf := zeros2 nConfs (1 + length params) in
  for_ (range nConfs) (fun k acsf =>
    r <- getitem dists k ;;
    acsf <- set2 acsf k 0 (fcut r) ;;
    for_ (range (length params)) (fun p acsf =>
      ' (eta, rs) <- getitem params p ;;
      set2 acsf k (1 + p) (G1f r eta rs)) acsf) acsf.

(** The "optional trick" cell: centre every column of [acsf] on its
    mean, then divide it by its standard deviation, in place. *)
Definition standardize (acsf : ndarray) : result ndarray :=
  let acsf_mean := mean_axis0 acsf in
  acsf <- for_ (range (ncols acsf)) (fun a acsf =>
            m <- getitem acsf_mean a ;; col_isub acsf a m) acsf ;;
  let acsf_std := std_axis0 acsf in
  for_ (range (ncols acsf)) (fun a acsf =>
    s <- getitem acsf_std a ;; col_idiv acsf a s) acsf.

End Dimer.

(** ** The trimer notebook *)

Module Trimer.

Definition fcut (r : R) : R := (cos (PI * r / Rcut) + 1) * 0.5.

Definition G1f (x eta Rs : R) : R :=
  exp (- eta * (x - Rs) * (x - Rs)) * ((cos (PI * x / Rcut) + 1) * 0.5).

Definition G4f (cost rij rik rjk eta : R) (zeta lamb : Z) : result R :=
  a <- math_pow 2 (1 - zeta) ;;
  b <- math_pow (1 + IZR lamb * cost) zeta ;;
  let result := a * b in
  let result := result * exp (- eta * (rij * rij + rik * rik + rjk * rjk)) in
  ret (result * fcut rij * fcut rjk * fcut rik).

(** The trimer of the notebook: [theta] is 30 degrees. *)
Definition theta : R := 30 * (PI / 180).

Definition atoms : list vec3 :=
  [ mk_vec3 0 0 0;
    mk_vec3 (cos theta) (- sin theta) 0;
    mk_vec3 (- cos theta) (- sin theta) 0 ].

Definition p_G1 : list (R * R) :=
  [(0.4, 0.2); (0.4, 0.5); (0.4, 1.0); (0.5, 2.0); (0.5, 3.0); (0.5, 4.0)].

Definition p_G4 : list (R * Z * Z) :=
  [(0.4, 1%Z, 1%Z); (0.4, 2%Z, 1%Z); (0.4, 3%Z, 1%Z);
   (0.8, 1%Z, 1%Z); (0.8, 2%Z, 1%Z)].

(** The loops of the notebook run over [range(3)], the number of rows
    of [atoms]; that number is the parameter [natoms] here. *)
Definition G0 (natoms : nat) (atoms : list vec3) : result (list R) :=
  for_ (range natoms) (fun i G0 =>
    for_ (range natoms) (fun j G0 =>
      if (i =? j)%nat then ret G0 else
      ai <- getitem atoms i ;;
      aj <- getitem atoms j ;;
      let r := norm (vsub ai aj) in
      if Rgt_dec r Rcut then ret G0 else
      iadd1 G0 i (fcut r)) G0) (zeros natoms).

Definition G1 (natoms : nat) (atoms : list vec3) (p : list (R * R))
  : result ndarray :=
  for_ (range natoms) (fun i G1 =>
    for_ (range natoms) (fun j G1 =>
      if (i =? j)%nat then ret G1 else
      ai <- getitem atoms i ;;
      aj <- getitem atoms j ;;
      let r := norm (vsub ai aj) in
      if Rgt_dec r Rcut then ret G1 else
      for_ (range (length p)) (fun k G1 =>
        ' (eta, rs) <- getitem p k ;;
        iadd2 G1 i k (G1f r eta rs)) G1) G1) (zeros2 natoms (length p)).

(** The innermost loop of the notebook reuses the name [k] for the
    parameter index; the distances and the cosine are computed before
    it starts, and the enclosing [for] takes its next [k] from its own
    iterator, so the parameter index is called [q] here. *)
Definition G4 (natoms : nat) (atoms : list vec3) (p : list (R * Z * Z))
  : result ndarray :=
  for_ (range natoms) (fun i G4 =>
    for_ (range natoms) (fun j G4 =>
      if (i =? j)%nat then ret G4 else
      ai <- getitem atoms i ;;
      aj <- getitem atoms j ;;
      let rij := norm (vsub ai aj) in
      if Rgt_dec rij Rcut then ret G4 else
      for_ (range natoms) (fun k G4 =>
        if (k =? i)%nat || (k =? j)%nat then ret G4 else
        ak <- getitem atoms k ;;
        let rik := norm (vsub ai ak) in
        let rjk := norm (vsub aj ak) in
        let cost := dot (vsub ai ak) (vsub ai aj) in
        cost <- div cost (rij * rik) ;;
        for_ (range (length p)) (fun q G4 =>
          ' (eta, zeta, lamb) <- getitem p q ;;
          v <- G4f cost rij rik rjk eta zeta lamb ;;
          iadd2 G4 i q v) G4) G4) G4) (zeros2 natoms (length p)).

End Trimer.

(** ** The energy-prediction notebook *)

Module Energy.

Definition samples (nrows : Z) : Z := Z.min nrows 9000.

Definition vsamples (nrows : Z) : Z := Z.min (nrows - samples nrows) 1000.

(** A slice bound as Python normalises it for a sequence of length
    [len]: negative bounds count from the end, and every bound is
    clamped to [0 .. len]. *)
Definition clamp (i len : Z) : Z :=
  if (i <? 0)%Z then Z.max (i + len) 0 else Z.min i len.

(** [a[lo:hi]] *)
Definition slice {A : Type} (a : list A) (lo hi : Z) : list A :=
  let len := Z.of_nat (length a) in
  let lo' := clamp lo len in
  let hi' := clamp hi len in
  firstn (Z.to_nat (hi' - lo')) (skipn (Z.to_nat lo') a).

(** The rows taken for training and for validation. *)
Definition split {A : Type} (data : list A) : list A * list A :=
  let n := Z.of_nat (length data) in
  let valid := slice data (samples n) (samples n + vsamples n) in
  let train := slice data 0 (samples n) in
  (train, valid).

(** [train_std[train_std==0] = 1] *)
Definition guard_std (train_std : list R) : list R :=
  map (fun s => if Req_dec_T s 0 then 1 else s) train_std.

(** Shift and scale [trainIn] and [validIn] with the training mean and
    standard deviation.  The two arrays are views of disjoint row
    ranges of the loaded array, so they are separate values here. *)
Definition scale (trainIn validIn : ndarray) : result (ndarray * ndarray) :=
  let train_mean := mean_axis0 trainIn in
  let train_std := std_axis0 trainIn in
  let train_std := guard_std train_std in
  trainIn <- for_ (range (ncols trainIn)) (fun a trainIn =>
               m <- getitem train_mean a ;; col_isub trainIn a m) trainIn ;;
  trainIn <- for_ (range (ncols trainIn)) (fun a trainIn =>
               s <- getitem train_std a ;; col_idiv trainIn a s) trainIn ;;
  validIn <- for_ (range (ncols validIn)) (fun a validIn =>
               m <- getitem train_mean a ;; col_isub validIn a m) validIn ;;
  validIn <- for_ (range (ncols validIn)) (fun a validIn =>
               s <- getitem train_std a ;; col_idiv validIn a s) validIn ;;
  ret (trainIn, validIn).

End Energy.

(** * Properties *)

(** ** Sums *)

Lemma Rsum_perm (l1 l2 : list R) : Permutation l1 l2 -> Rsum l1 = Rsum l2.
Proof. induction 1; simpl; lra. Qed.

Lemma Rsum_map_ext {A : Type} (f g : A -> R) (l : list A) :
  (forall a, In a l -> f a = g a) -> Rsum (map f l) = Rsum (map g l).
Proof.
  induction l as [|a l IH]; intros H; simpl; [reflexivity|].
  rewrite (H a (or_introl eq_refl)), IH; [reflexivity|].
  intros b Hb. apply H. right. exact Hb.
Qed.

Lemma Rsum_map_zero {A : Type} (f : A -> R) (l : list A) :
  (forall a, In a l -> f a = 0) -> Rsum (map f l) = 0.
Proof.
  induction l as [|a l IH]; intros H; simpl; [reflexivity|].
  rewrite (H a (or_introl eq_refl)), IH; [lra|].
  intros b Hb. apply H. right. exact Hb.
Qed.

Lemma Rsum_map_nonneg {A : Type} (f : A -> R) (l : list A) :
  (forall a, In a l -> 0 <= f a) -> 0 <= Rsum (map f l).
Proof.
  induction l as [|a l IH]; intros H; simpl; [lra|].
  assert (0 <= f a) by (apply H; left; reflexivity).
  assert (0 <= Rsum (map f l)) by (apply IH; intros b Hb; apply H; right; exact Hb).
  lra.
Qed.

Lemma Rsum_map_plus {A : Type} (f g : A -> R) (l : list A) :
  Rsum (map (fun a => f a + g a) l) = Rsum (map f l) + Rsum (map g l).
Proof. induction l as [|a l IH]; simpl; [lra | rewrite IH; lra]. Qed.

Lemma Rsum_map_scal {A : Type} (c : R) (f : A -> R) (l : list A) :
  Rsum (map (fun a => f a * c) l) = Rsum (map f l) * c.
Proof. induction l as [|a l IH]; simpl; [lra | rewrite IH; lra]. Qed.

Lemma Rsum_map_const {A : Type} (c : R) (l : list A) :
  Rsum (map (fun _ => c) l) = INR (length l) * c.
Proof.
  induction l as [|a l IH]; [simpl; lra|].
  change (c + Rsum (map (fun _ => c) l) = INR (S (length l)) * c).
  rewrite IH, S_INR. lra.
Qed.

(** Only the index [i] contributes to a sum of terms guarded by [i =? a]. *)
Lemma Rsum_only (f : nat -> R) (i a n : nat) :
  Rsum (map (fun i' => if (i' =? i)%nat then f i' else 0) (seq a n)) =
  if ((a <=? i) && (i <? a + n))%nat then f i else 0.
Proof.
  revert a. induction n as [|n IH]; intros a; simpl.
  - destruct (a <=? i)%nat eqn:E1, (i <? a + 0)%nat eqn:E2; simpl; try reflexivity.
    apply Nat.leb_le in E1. apply Nat.ltb_lt in E2. lia.
  - rewrite IH.
    destruct (a =? i)%nat eqn:E.
    + apply Nat.eqb_eq in E. subst a.
      replace (S i <=? i)%nat with false by (symmetry; apply Nat.leb_gt; lia).
      replace (i <=? i)%nat with true by (symmetry; apply Nat.leb_le; lia).
      replace (i <? i + S n)%nat with true by (symmetry; apply Nat.ltb_lt; lia).
      simpl. lra.
    + apply Nat.eqb_neq in E.
      replace (a + S n)%nat with (S a + n)%nat by lia.
      destruct (S a <=? i)%nat eqn:E1, (a <=? i)%nat eqn:E2; simpl; try lra.
      * apply Nat.leb_le in E1. apply Nat.leb_gt in E2. lia.
      * apply Nat.leb_gt in E1. apply Nat.leb_le in E2. lia.
Qed.

Lemma Rsum_filter {A : Type} (f : A -> R) (t : A -> bool) (l : list A) :
  Rsum (map (fun a => if t a then f a else 0) l) = Rsum (map f (filter t l)).
Proof.
  induction l as [|a l IH]; simpl; [reflexivity|].
  destruct (t a); simpl; rewrite IH; lra.
Qed.

(** ** Loops that update the cells of an array

    [ok] is the shape invariant of the array, [ent] reads a cell and
    [dom] is the set of cells.  A body [updates] with [F] when it ends
    without an exception, keeps the shape and replaces the content [v] of
    every cell [x] by [F x v]. *)

Section Loops.

Context {S I : Type}.
Variable ok : S -> Prop.
Variable ent : S -> I -> R.
Variable dom : I -> Prop.

Definition updates (body : S -> result S) (F : I -> R -> R) : Prop :=
  forall s, ok s ->
    exists s', body s = inr s' /\ ok s' /\
               forall x, dom x -> ent s' x = F x (ent s x).

Definition adds (body : S -> result S) (d : I -> R) : Prop :=
  updates body (fun x v => v + d x).

Lemma updates_ext (body : S -> result S) (F G : I -> R -> R) :
  (forall x v, dom x -> F x v = G x v) -> updates body F -> updates body G.
Proof.
  intros HFG H s Hs. destruct (H s Hs) as (s' & E & Hok & Hent).
  exists s'. repeat split; auto.
  intros x Hx. rewrite Hent by assumption. apply HFG; assumption.
Qed.

Lemma updates_ret : updates (fun s => ret s) (fun _ v => v).
Proof. intros s Hs. exists s. repeat split; auto. Qed.

Lemma updates_seq (b1 b2 : S -> result S) (F1 F2 : I -> R -> R) :
  updates b1 F1 -> updates b2 F2 ->
  updates (fun s => s' <- b1 s ;; b2 s') (fun x v => F2 x (F1 x v)).
Proof.
  intros H1 H2 s Hs.
  destruct (H1 s Hs) as (s1 & E1 & Hok1 & Hent1).
  destruct (H2 s1 Hok1) as (s2 & E2 & Hok2 & Hent2).
  exists s2. rewrite E1. simpl. repeat split; auto.
  intros x Hx. rewrite Hent2, Hent1 by assumption. reflexivity.
Qed.

Lemma for_updates {A : Type} (l : list A) (body : A -> S -> result S)
      (F : A -> I -> R -> R) :
  (forall a, In a l -> updates (body a) (F a)) ->
  updates (for_ l body) (fun x v => fold_left (fun v a => F a x v) l v).
Proof.
  induction l as [|a l IH]; intros H.
  - apply updates_ret.
  - simpl. apply (updates_seq (body a) (for_ l body) (F a)
                    (fun x v => fold_left (fun v a => F a x v) l v)).
    + apply H. left. reflexivity.
    + apply IH. intros b Hb. apply H. right. exact Hb.
Qed.

Lemma adds_ret : adds (fun s => ret s) (fun _ => 0).
Proof.
  apply (updates_ext _ (fun _ v => v)); [intros; lra | apply updates_ret].
Qed.

Lemma adds_ext (body : S -> result S) (d e : I -> R) :
  (forall x, dom x -> d x = e x) -> adds body d -> adds body e.
Proof.
  intros Hde. apply updates_ext. intros x v Hx. rewrite Hde by assumption.
  reflexivity.
Qed.

Lemma fold_left_add {A : Type} (l : list A) (d : A -> R) (v : R) :
  fold_left (fun v a => v + d a) l v = v + Rsum (map d l).
Proof.
  revert v. induction l as [|a l IH]; intros v; simpl; [lra|].
  rewrite IH. lra.
Qed.

Lemma for_adds {A : Type} (l : list A) (body : A -> S -> result S)
      (d : A -> I -> R) :
  (forall a, In a l -> adds (body a) (d a)) ->
  adds (for_ l body) (fun x => Rsum (map (fun a => d a x) l)).
Proof.
  intros H. unfold adds.
  apply (updates_ext _ (fun x v => fold_left (fun v a => v + d a x) l v)).
  - intros x v _. apply fold_left_add.
  - apply (for_updates l body (fun a x v => v + d a x)). exact H.
Qed.

End Loops.

(** ** One-dimensional arrays *)

Lemma getitem_nth {A : Type} (l : list A) (i : nat) (d : A) :
  (i < length l)%nat -> getitem l i = inr (nth i l d).
Proof.
  intros H. unfold getitem.
  destruct (nth_error l i) as [a|] eqn:E.
  - rewrite (nth_error_nth l i d E). reflexivity.
  - apply nth_error_None in E. lia.
Qed.

Lemma list_set_length {A : Type} (l : list A) (i : nat) (v : A) :
  length (list_set l i v) = length l.
Proof.
  revert i. induction l as [|a l IH]; intros [|i]; simpl; auto.
Qed.

Lemma list_set_nth {A : Type} (l : list A) (i j : nat) (v d : A) :
  (i < length l)%nat ->
  nth j (list_set l i v) d = if (j =? i)%nat then v else nth j l d.
Proof.
  revert i j. induction l as [|a l IH]; intros i j H; simpl in H; [lia|].
  destruct i as [|i], j as [|j]; simpl; try reflexivity.
  apply IH. lia.
Qed.

Lemma setitem_inr {A : Type} (l : list A) (i : nat) (v : A) :
  (i < length l)%nat -> setitem l i v = inr (list_set l i v).
Proof.
  intros H. unfold setitem.
  replace (i <? length l)%nat with true by (symmetry; apply Nat.ltb_lt; exact H).
  reflexivity.
Qed.

Lemma list_upd_length (l : list R) (i : nat) (f : R -> R) :
  length (list_upd l i f) = length l.
Proof.
  revert i. induction l as [|a l IH]; intros [|i]; simpl; auto.
Qed.

Lemma list_upd_nth (l : list R) (i j : nat) (f : R -> R) :
  (i < length l)%nat ->
  nth j (list_upd l i f) 0 = if (j =? i)%nat then f (nth j l 0) else nth j l 0.
Proof.
  revert i j. induction l as [|a l IH]; intros i j H; simpl in H; [lia|].
  destruct i as [|i], j as [|j]; simpl; try reflexivity.
  apply IH. lia.
Qed.

Definition ok1 (n : nat) (a : list R) : Prop := length a = n.

Definition ent1 (a : list R) (i : nat) : R := nth i a 0.

Definition dom1 (n : nat) (i : nat) : Prop := (i < n)%nat.

Lemma zeros_ok1 (n : nat) : ok1 n (zeros n).
Proof. apply repeat_length. Qed.

Lemma zeros_ent1 (n i : nat) : ent1 (zeros n) i = 0.
Proof.
  unfold ent1, zeros. revert i. induction n as [|n IH]; intros [|i]; simpl; auto.
Qed.

Lemma iadd1_adds (n i : nat) (v : R) :
  (i < n)%nat ->
  adds (ok1 n) ent1 (dom1 n) (fun a => iadd1 a i v)
       (fun i' => if (i' =? i)%nat then v else 0).
Proof.
  intros Hi a Ha. unfold ok1 in Ha.
  exists (list_set a i (nth i a 0 + v)). unfold iadd1.
  rewrite (getitem_nth a i 0) by lia. simpl.
  rewrite setitem_inr by lia.
  split; [reflexivity|]. split.
  - unfold ok1. rewrite list_set_length. exact Ha.
  - intros i' _. unfold ent1. rewrite list_set_nth by lia.
    destruct (i' =? i)%nat eqn:E; [|lra].
    apply Nat.eqb_eq in E. subst i'. reflexivity.
Qed.

(** ** Two-dimensional arrays *)

Definition ok2 (r c : nat) (M : ndarray) : Prop :=
  ncols M = c /\ nrows M = r /\ Forall (fun row => length row = c) (rows M).

Definition ent2 (M : ndarray) (x : nat * nat) : R := entry M (fst x) (snd x).

Definition dom2 (r c : nat) (x : nat * nat) : Prop :=
  (fst x < r)%nat /\ (snd x < c)%nat.

Definition hit (i k : nat) (x : nat * nat) : bool :=
  ((fst x =? i)%nat && (snd x =? k)%nat)%bool.

Lemma zeros2_ok2 (r c : nat) : ok2 r c (zeros2 r c).
Proof.
  unfold ok2, zeros2, nrows. simpl. repeat split.
  - apply repeat_length.
  - apply Forall_forall. intros row H. apply repeat_spec in H. subst row.
    apply repeat_length.
Qed.

Lemma nth_repeat_same {A : Type} (n i : nat) (a : A) : nth i (repeat a n) a = a.
Proof. revert i. induction n as [|n IH]; intros [|i]; simpl; auto. Qed.

Lemma zeros2_entry (r c i k : nat) : entry (zeros2 r c) i k = 0.
Proof.
  unfold entry, zeros2. simpl.
  destruct (Nat.lt_ge_cases i r) as [H|H].
  - rewrite (nth_indep _ [] (repeat 0 c)) by (rewrite repeat_length; exact H).
    rewrite nth_repeat_same. apply nth_repeat_same.
  - rewrite (nth_overflow (repeat (repeat 0 c) r))
      by (rewrite repeat_length; exact H).
    destruct k; reflexivity.
Qed.

Lemma ok2_row_length (r c : nat) (M : ndarray) (i : nat) :
  ok2 r c M -> (i < r)%nat -> length (nth i (rows M) []) = c.
Proof.
  intros (_ & Hr & Hf) Hi. unfold nrows in Hr.
  rewrite Forall_forall in Hf. apply Hf. apply nth_In. lia.
Qed.

Lemma set2_updates (r c i k : nat) (v : R) :
  (i < r)%nat -> (k < c)%nat ->
  updates (ok2 r c) ent2 (dom2 r c) (fun M => set2 M i k v)
          (fun x old => if hit i k x then v else old).
Proof.
  intros Hi Hk M HM.
  pose proof (ok2_row_length r c M i HM Hi) as Hlen.
  destruct HM as (Hc & Hr & Hf). unfold nrows in Hr.
  exists {| ncols := ncols M;
            rows := list_set (rows M) i (list_set (nth i (rows M) []) k v) |}.
  unfold set2.
  rewrite (getitem_nth (rows M) i []) by lia. simpl.
  rewrite setitem_inr by lia. simpl.
  rewrite setitem_inr by lia. simpl.
  split; [reflexivity|]. split.
  - unfold ok2, nrows. simpl. rewrite list_set_length. repeat split; auto.
    apply Forall_forall. intros row Hin.
    destruct (In_nth _ _ [] Hin) as (j & Hj & Hrow).
    rewrite list_set_length in Hj.
    rewrite list_set_nth in Hrow by lia.
    destruct (j =? i)%nat.
    + subst row. rewrite list_set_length. exact Hlen.
    + subst row. rewrite Forall_forall in Hf. apply Hf. apply nth_In. lia.
  - intros [i' k'] _. unfold ent2, entry, hit. simpl.
    rewrite list_set_nth by lia.
    destruct (i' =? i)%nat eqn:E; simpl; [|reflexivity].
    rewrite list_set_nth by lia.
    apply Nat.eqb_eq in E. subst i'. reflexivity.
Qed.

Lemma get2_entry (r c : nat) (M : ndarray) (i k : nat) :
  ok2 r c M -> (i < r)%nat -> (k < c)%nat -> get2 M i k = inr (entry M i k).
Proof.
  intros HM Hi Hk.
  pose proof (ok2_row_length r c M i HM Hi) as Hlen.
  destruct HM as (Hc & Hr & Hf). unfold nrows in Hr.
  unfold get2, entry.
  rewrite (getitem_nth (rows M) i []) by lia. simpl.
  apply getitem_nth. lia.
Qed.

Lemma iadd2_adds (r c i k : nat) (v : R) :
  (i < r)%nat -> (k < c)%nat ->
  adds (ok2 r c) ent2 (dom2 r c) (fun M => iadd2 M i k v)
       (fun x => if hit i k x then v else 0).
Proof.
  intros Hi Hk M HM.
  destruct (set2_updates r c i k (entry M i k + v) Hi Hk M HM)
    as (M' & E & Hok & Hent).
  exists M'. unfold iadd2. rewrite (get2_entry r c) by assumption. simpl.
  split; [exact E|]. split; [exact Hok|].
  intros x Hx. rewrite Hent by assumption.
  unfold hit. destruct x as [i' k']. simpl.
  destruct (i' =? i)%nat eqn:E1, (k' =? k)%nat eqn:E2; simpl; try lra.
  apply Nat.eqb_eq in E1, E2. subst. unfold ent2. simpl. reflexivity.
Qed.

Lemma col_update_ok2 (r c a : nat) (f : R -> R) (M : ndarray) :
  ok2 r c M ->
  ok2 r c {| ncols := ncols M;
             rows := map (fun row => list_upd row a f) (rows M) |}.
Proof.
  intros (Hc & Hr & Hf). unfold ok2, nrows in *. simpl.
  rewrite length_map. repeat split; auto.
  apply Forall_forall. intros row Hin. apply in_map_iff in Hin.
  destruct Hin as (row0 & <- & Hin0). rewrite list_upd_length.
  rewrite Forall_forall in Hf. apply Hf. exact Hin0.
Qed.

Lemma col_update_entry (r c a : nat) (f : R -> R) (M : ndarray) (i k : nat) :
  ok2 r c M -> (a < c)%nat -> (i < r)%nat ->
  entry {| ncols := ncols M;
           rows := map (fun row => list_upd row a f) (rows M) |} i k =
  if (k =? a)%nat then f (entry M i k) else entry M i k.
Proof.
  intros HM Ha Hi.
  pose proof (ok2_row_length r c M i HM Hi) as Hlen.
  destruct HM as (Hc & Hr & Hf). unfold nrows in Hr.
  unfold entry. simpl.
  rewrite (nth_indep _ [] (list_upd [] a f)) by (rewrite length_map; lia).
  rewrite (map_nth (fun row => list_upd row a f)).
  apply list_upd_nth. lia.
Qed.

Lemma col_isub_updates (r c a : nat) (m : R) :
  (a < c)%nat ->
  updates (ok2 r c) ent2 (dom2 r c) (fun M => col_isub M a m)
          (fun x v => if (snd x =? a)%nat then v - m else v).
Proof.
  intros Ha M HM. unfold col_isub.
  assert (Hc : ncols M = c) by apply HM.
  replace (a <? ncols M)%nat with true by (symmetry; apply Nat.ltb_lt; lia).
  eexists. split; [reflexivity|]. split.
  - apply col_update_ok2. exact HM.
  - intros [i k] [Hi Hk]. simpl in *. unfold ent2. simpl.
    apply (col_update_entry r c); assumption.
Qed.

Lemma col_idiv_updates (r c a : nat) (s : R) :
  (a < c)%nat -> s <> 0 ->
  updates (ok2 r c) ent2 (dom2 r c) (fun M => col_idiv M a s)
          (fun x v => if (snd x =? a)%nat then v / s else v).
Proof.
  intros Ha Hs M HM. unfold col_idiv.
  assert (Hc : ncols M = c) by apply HM.
  replace (a <? ncols M)%nat with true by (symmetry; apply Nat.ltb_lt; lia).
  destruct (Req_dec_T s 0) as [E|_]; [contradiction|].
  eexists. split; [reflexivity|]. split.
  - apply col_update_ok2. exact HM.
  - intros [i k] [Hi Hk]. simpl in *. unfold ent2. simpl.
    apply (col_update_entry r c); assumption.
Qed.

(** ** The cutoff functions *)

Lemma Rcut_val : Rcut = 5.
Proof. unfold Rcut. lra. Qed.

Lemma Rcut_pos : 0 < Rcut.
Proof. rewrite Rcut_val. lra. Qed.

Lemma Dimer_fcut_beyond (r : R) : r >= Rcut -> Dimer.fcut r = 0.
Proof.
  intros H. unfold Dimer.fcut. destruct (Rge_dec r Rcut); [reflexivity | contradiction].
Qed.

Lemma Dimer_fcut_inside (r : R) :
  r < Rcut -> Dimer.fcut r = (cos (PI * r / Rcut) + 1) * 0.5.
Proof.
  intros H. unfold Dimer.fcut. destruct (Rge_dec r Rcut); [lra | reflexivity].
Qed.

Lemma Trimer_fcut_Rcut : Trimer.fcut Rcut = 0.
Proof.
  unfold Trimer.fcut.
  replace (PI * Rcut / Rcut) with PI by (field; apply Rgt_not_eq, Rcut_pos).
  rewrite cos_PI. lra.
Qed.

(** Up to and including the cutoff radius the two cutoff functions agree. *)
Lemma fcut_agree (r : R) : r <= Rcut -> Dimer.fcut r = Trimer.fcut r.
Proof.
  intros [H|H].
  - rewrite Dimer_fcut_inside by exact H. reflexivity.
  - subst r. rewrite Trimer_fcut_Rcut. apply Dimer_fcut_beyond. lra.
Qed.

Lemma cos_gt_m1 (x : R) : 0 <= x < PI -> -1 < cos x.
Proof.
  intros [H0 H1]. rewrite <- cos_PI.
  apply cos_decreasing_1; lra.
Qed.

Lemma Trimer_fcut_pos (r : R) : 0 <= r < Rcut -> 0 < Trimer.fcut r.
Proof.
  intros [H0 H1]. unfold Trimer.fcut.
  pose proof Rcut_pos as Hc. pose proof PI_RGT_0 as Hpi.
  assert (Hx : 0 <= PI * r / Rcut < PI).
  { split.
    - apply Rmult_le_pos; [apply Rmult_le_pos; lra | left; apply Rinv_0_lt_compat; exact Hc].
    - apply (Rmult_lt_reg_r Rcut); [exact Hc|].
      unfold Rdiv. rewrite Rmult_assoc, Rinv_l by lra. nra. }
  pose proof (cos_gt_m1 _ Hx). lra.
Qed.

(** On [0, Rcut] the cutoff function is strictly decreasing. *)
Lemma Trimer_fcut_decreasing (r1 r2 : R) :
  0 <= r1 -> r1 < r2 -> r2 <= Rcut -> Trimer.fcut r2 < Trimer.fcut r1.
Proof.
  intros H0 H12 H2. unfold Trimer.fcut.
  pose proof Rcut_pos as Hc. pose proof PI_RGT_0 as Hpi.
  assert (Hinv : 0 < / Rcut) by (apply Rinv_0_lt_compat; exact Hc).
  assert (cos (PI * r2 / Rcut) < cos (PI * r1 / Rcut)); [|lra].
  assert (E : forall r, PI * r / Rcut = (PI * / Rcut) * r) by (intros; unfold Rdiv; ring).
  assert (Hk : 0 < PI * / Rcut) by (apply Rmult_lt_0_compat; assumption).
  assert (Hk2 : (PI * / Rcut) * Rcut = PI) by (field; lra).
  rewrite !E.
  apply cos_decreasing_1; nra.
Qed.

Lemma Trimer_G1f_fcut (x eta Rs : R) :
  Trimer.G1f x eta Rs = exp (- eta * (x - Rs) * (x - Rs)) * Trimer.fcut x.
Proof. reflexivity. Qed.

(** ** Distances in a coordinate array *)

Definition origin : vec3 := mk_vec3 0 0 0.

Definition pos (atoms : list vec3) (i : nat) : vec3 := nth i atoms origin.

(** The Euclidean distance between the atoms [i] and [j]. *)
Definition dist (atoms : list vec3) (i j : nat) : R :=
  norm (vsub (pos atoms i) (pos atoms j)).

Lemma dot_self_nonneg (u : vec3) : 0 <= dot u u.
Proof. unfold dot. nra. Qed.

Lemma norm_nonneg (u : vec3) : 0 <= norm u.
Proof. apply sqrt_pos. Qed.

Lemma norm_zero_iff (u v : vec3) : norm (vsub u v) = 0 <-> u = v.
Proof.
  split.
  - intros H. unfold norm in H. apply sqrt_eq_0 in H; [|apply dot_self_nonneg].
    destruct u as [a b c], v as [a' b' c']. unfold dot, vsub in H. simpl in H.
    pose proof (Rle_0_sqr (a - a')) as Ha.
    pose proof (Rle_0_sqr (b - b')) as Hb.
    pose proof (Rle_0_sqr (c - c')) as Hc.
    unfold Rsqr in Ha, Hb, Hc.
    assert (Ea : (a - a') * (a - a') = 0) by lra.
    assert (Eb : (b - b') * (b - b') = 0) by lra.
    assert (Ec : (c - c') * (c - c') = 0) by lra.
    apply Rsqr_0_uniq in Ea, Eb, Ec.
    f_equal; lra.
  - intros ->. unfold norm, dot, vsub. simpl.
    replace ((vx v - vx v) * (vx v - vx v) + (vy v - vy v) * (vy v - vy v) +
             (vz v - vz v) * (vz v - vz v)) with 0 by ring.
    apply sqrt_0.
Qed.

Lemma norm_sym (u v : vec3) : norm (vsub u v) = norm (vsub v u).
Proof. unfold norm, dot, vsub. simpl. f_equal. ring. Qed.

Lemma dist_nonneg (atoms : list vec3) (i j : nat) : 0 <= dist atoms i j.
Proof. apply norm_nonneg. Qed.

Lemma dist_pos (atoms : list vec3) (i j : nat) :
  NoDup atoms -> (i < length atoms)%nat -> (j < length atoms)%nat -> i <> j ->
  0 < dist atoms i j.
Proof.
  intros Hnd Hi Hj Hij.
  destruct (dist_nonneg atoms i j) as [H|H]; [exact H|].
  exfalso. symmetry in H. apply norm_zero_iff in H.
  apply Hij. apply (proj1 (NoDup_nth atoms origin) Hnd); assumption.
Qed.

(** ** Closed forms of the trimer loops *)

(** What the pair [(i, j)] adds to [G0[i]]. *)
Definition G0_term (atoms : list vec3) (i j : nat) : R :=
  if (i =? j)%nat then 0
  else if Rgt_dec (dist atoms i j) Rcut then 0
       else Trimer.fcut (dist atoms i j).

(** What the pair [(i, j)] adds to [G1[i,k]] for the parameters
    [(eta, Rs)]. *)
Definition G1_term (atoms : list vec3) (eta_Rs : R * R) (i j : nat) : R :=
  if (i =? j)%nat then 0
  else if Rgt_dec (dist atoms i j) Rcut then 0
       else Trimer.G1f (dist atoms i j) (fst eta_Rs) (snd eta_Rs).

Lemma G0_body_adds (n : nat) (atoms : list vec3) (i j : nat) :
  length atoms = n -> (i < n)%nat -> (j < n)%nat ->
  adds (ok1 n) ent1 (dom1 n)
    (fun G0 =>
       if (i =? j)%nat then ret G0 else
       ai <- getitem atoms i ;;
       aj <- getitem atoms j ;;
       let r := norm (vsub ai aj) in
       if Rgt_dec r Rcut then ret G0 else
       iadd1 G0 i (Trimer.fcut r))
    (fun i' => if (i' =? i)%nat then G0_term atoms i j else 0).
Proof.
  intros Hlen Hi Hj. unfold G0_term.
  destruct (i =? j)%nat.
  - apply (adds_ext _ _ _ _ (fun _ => 0)); [|apply adds_ret].
    intros i' _. destruct (i' =? i)%nat; reflexivity.
  - rewrite (getitem_nth atoms i origin), (getitem_nth atoms j origin) by lia.
    simpl. fold (pos atoms i) (pos atoms j) (dist atoms i j).
    destruct (Rgt_dec (dist atoms i j) Rcut).
    + apply (adds_ext _ _ _ _ (fun _ => 0)); [|apply adds_ret].
      intros i' _. destruct (i' =? i)%nat; reflexivity.
    + apply iadd1_adds. exact Hi.
Qed.

Lemma G0_closed (n : nat) (atoms : list vec3) :
  length atoms = n ->
  exists G, Trimer.G0 n atoms = inr G /\ length G = n /\
    forall i, (i < n)%nat ->
      nth i G 0 = Rsum (map (G0_term atoms i) (range n)).
Proof.
  intros Hlen.
  assert (H : adds (ok1 n) ent1 (dom1 n)
                (for_ (range n) (fun i G0 =>
                   for_ (range n) (fun j G0 =>
                     if (i =? j)%nat then ret G0 else
                     ai <- getitem atoms i ;;
                     aj <- getitem atoms j ;;
                     let r := norm (vsub ai aj) in
                     if Rgt_dec r Rcut then ret G0 else
                     iadd1 G0 i (Trimer.fcut r)) G0))
                (fun i' => Rsum (map (fun i =>
                   Rsum (map (fun j => if (i' =? i)%nat then G0_term atoms i j else 0)
                             (range n))) (range n)))).
  { apply for_adds. intros i Hi. apply in_seq in Hi.
    apply for_adds. intros j Hj. apply in_seq in Hj.
    apply G0_body_adds; [exact Hlen | lia | lia]. }
  destruct (H (zeros n) (zeros_ok1 n)) as (G & E & Hok & Hent).
  exists G. split; [exact E|]. split; [exact Hok|].
  intros i Hi. specialize (Hent i Hi). unfold ent1 in Hent at 1.
  rewrite Hent, zeros_ent1.
  rewrite (Rsum_map_ext _ (fun i0 => if (i0 =? i)%nat
             then Rsum (map (G0_term atoms i0) (range n)) else 0)).
  - unfold range. rewrite Rsum_only.
    replace ((0 <=? i)%nat && (i <? 0 + n)%nat)%bool with true; [lra|].
    symmetry. apply andb_true_iff. split; [apply Nat.leb_le | apply Nat.ltb_lt]; lia.
  - intros i0 _. rewrite (Nat.eqb_sym i0 i). destruct (i =? i0)%nat eqn:E0.
    + apply Nat.eqb_eq in E0. subst i0. reflexivity.
    + apply Rsum_map_zero. reflexivity.
Qed.

Lemma Rsum_if_out {A : Type} (c : bool) (f : A -> R) (l : list A) :
  Rsum (map (fun a => if c then f a else 0) l) =
  if c then Rsum (map f l) else 0.
Proof.
  destruct c; [reflexivity|]. apply Rsum_map_zero. reflexivity.
Qed.

(** Of the rows visited by the outer loop only row [i] adds to a cell of
    row [i]. *)
Lemma Rsum_row_only (n i : nat) (f : nat -> R) :
  (i < n)%nat ->
  Rsum (map (fun i0 => if (i =? i0)%nat then f i0 else 0) (range n)) = f i.
Proof.
  intros Hi.
  rewrite (Rsum_map_ext _ (fun i0 => if (i0 =? i)%nat then f i0 else 0))
    by (intros i0 _; rewrite (Nat.eqb_sym i0 i); reflexivity).
  unfold range. rewrite Rsum_only.
  replace ((0 <=? i)%nat && (i <? 0 + n)%nat)%bool with true; [reflexivity|].
  symmetry. apply andb_true_iff. split; [apply Nat.leb_le | apply Nat.ltb_lt]; lia.
Qed.

(** The loop over the parameter list: column [q] of row [i] receives
    [v q]. *)
Lemma param_loop_adds (r c i : nat) (body : nat -> ndarray -> result ndarray)
      (v : nat -> R) :
  (i < r)%nat ->
  (forall q G, (q < c)%nat -> body q G = iadd2 G i q (v q)) ->
  adds (ok2 r c) ent2 (dom2 r c) (for_ (range c) body)
       (fun x => if (fst x =? i)%nat then v (snd x) else 0).
Proof.
  intros Hi Hbody.
  apply (adds_ext _ _ _ _
           (fun x => Rsum (map (fun q => if hit i q x then v q else 0) (range c)))).
  - intros [i' k'] [_ Hk]. simpl in *. unfold hit. simpl.
    destruct (i' =? i)%nat; simpl.
    + apply (Rsum_row_only c k' v). exact Hk.
    + apply Rsum_map_zero. reflexivity.
  - apply for_adds. intros q Hq. apply in_seq in Hq.
    intros M HM. rewrite Hbody by lia.
    apply (iadd2_adds r c i q (v q)); [exact Hi | lia | exact HM].
Qed.

Lemma G1_body_adds (n : nat) (atoms : list vec3) (p : list (R * R)) (i j : nat) :
  length atoms = n -> (i < n)%nat -> (j < n)%nat ->
  adds (ok2 n (length p)) ent2 (dom2 n (length p))
    (fun G1 =>
       if (i =? j)%nat then ret G1 else
       ai <- getitem atoms i ;;
       aj <- getitem atoms j ;;
       let r := norm (vsub ai aj) in
       if Rgt_dec r Rcut then ret G1 else
       for_ (range (length p)) (fun k G1 =>
         ' (eta, rs) <- getitem p k ;;
         iadd2 G1 i k (Trimer.G1f r eta rs)) G1)
    (fun x => if (fst x =? i)%nat
              then G1_term atoms (nth (snd x) p (0, 0)) i j else 0).
Proof.
  intros Hlen Hi Hj. unfold G1_term.
  destruct (i =? j)%nat.
  - apply (adds_ext _ _ _ _ (fun _ => 0)); [|apply adds_ret].
    intros x _. destruct (fst x =? i)%nat; reflexivity.
  - rewrite (getitem_nth atoms i origin), (getitem_nth atoms j origin) by lia.
    simpl. fold (pos atoms i) (pos atoms j) (dist atoms i j).
    destruct (Rgt_dec (dist atoms i j) Rcut).
    + apply (adds_ext _ _ _ _ (fun _ => 0)); [|apply adds_ret].
      intros x _. destruct (fst x =? i)%nat; reflexivity.
    + apply (param_loop_adds n (length p) i _
               (fun q => Trimer.G1f (dist atoms i j) (fst (nth q p (0, 0)))
                                    (snd (nth q p (0, 0))))).
      * exact Hi.
      * intros q G Hq. rewrite (getitem_nth p q (0, 0)) by exact Hq.
        simpl. destruct (nth q p (0, 0)). reflexivity.
Qed.

Lemma G1_closed (n : nat) (atoms : list vec3) (p : list (R * R)) :
  length atoms = n ->
  exists M, Trimer.G1 n atoms p = inr M /\ ok2 n (length p) M /\
    forall i k, (i < n)%nat -> (k < length p)%nat ->
      entry M i k = Rsum (map (G1_term atoms (nth k p (0, 0)) i) (range n)).
Proof.
  intros Hlen.
  assert (H : adds (ok2 n (length p)) ent2 (dom2 n (length p))
                (for_ (range n) (fun i G1 =>
                   for_ (range n) (fun j G1 =>
                     if (i =? j)%nat then ret G1 else
                     ai <- getitem atoms i ;;
                     aj <- getitem atoms j ;;
                     let r := norm (vsub ai aj) in
                     if Rgt_dec r Rcut then ret G1 else
                     for_ (range (length p)) (fun k G1 =>
                       ' (eta, rs) <- getitem p k ;;
                       iadd2 G1 i k (Trimer.G1f r eta rs)) G1) G1))
                (fun x => Rsum (map (fun i =>
                   Rsum (map (fun j => if (fst x =? i)%nat
                        then G1_term atoms (nth (snd x) p (0, 0)) i j else 0)
                      (range n))) (range n)))).
  { apply for_adds. intros i Hi. apply in_seq in Hi.
    apply for_adds. intros j Hj. apply in_seq in Hj.
    apply G1_body_adds; [exact Hlen | lia | lia]. }
  destruct (H (zeros2 n (length p)) (zeros2_ok2 n (length p)))
    as (M & E & Hok & Hent).
  exists M. split; [exact E|]. split; [exact Hok|].
  intros i k Hi Hk. specialize (Hent (i, k) (conj Hi Hk)).
  unfold ent2 in Hent. simpl in Hent. rewrite Hent, zeros2_entry.
  rewrite (Rsum_map_ext _ (fun i0 => if (i =? i0)%nat
             then Rsum (map (G1_term atoms (nth k p (0, 0)) i0) (range n)) else 0))
    by (intros i0 _; apply Rsum_if_out).
  rewrite Rsum_row_only by exact Hi. lra.
Qed.

(** The cosine of the angle at atom [i] between the atoms [j] and [k], as
    the loop of [G4] computes it. *)
Definition cosine (atoms : list vec3) (i j k : nat) : R :=
  dot (vsub (pos atoms i) (pos atoms k)) (vsub (pos atoms i) (pos atoms j))
  / (dist atoms i j * dist atoms i k).

(** The number [G4f] returns when [math.pow] raises no exception. *)
Definition G4f_value (cost rij rik rjk eta : R) (zeta lamb : Z) : R :=
  powerRZ 2 (1 - zeta) * powerRZ (1 + IZR lamb * cost) zeta
  * exp (- eta * (rij * rij + rik * rik + rjk * rjk))
  * Trimer.fcut rij * Trimer.fcut rjk * Trimer.fcut rik.

Definition zeta_of (t : R * Z * Z) : Z := snd (fst t).

(** What the triplet [(i, j, k)] adds to [G4[i,q]] for the parameters
    [t = (eta, zeta, lamb)]. *)
Definition G4_term (atoms : list vec3) (t : R * Z * Z) (i j k : nat) : R :=
  if (i =? j)%nat then 0
  else if Rgt_dec (dist atoms i j) Rcut then 0
  else if ((k =? i)%nat || (k =? j)%nat)%bool then 0
  else G4f_value (cosine atoms i j k) (dist atoms i j) (dist atoms i k)
                 (dist atoms j k) (fst (fst t)) (snd (fst t)) (snd t).

Lemma math_pow_base_nonzero (x : R) (y : Z) :
  x <> 0 -> math_pow x y = inr (powerRZ x y).
Proof.
  intros H. unfold math_pow. destruct (Req_dec_T x 0); [contradiction | reflexivity].
Qed.

Lemma math_pow_exp_nonneg (x : R) (y : Z) :
  (0 <= y)%Z -> math_pow x y = inr (powerRZ x y).
Proof.
  intros H. unfold math_pow.
  replace (y <? 0)%Z with false by (symmetry; apply Z.ltb_ge; exact H).
  destruct (Req_dec_T x 0); reflexivity.
Qed.

Lemma G4f_inr (cost rij rik rjk eta : R) (zeta lamb : Z) :
  (0 <= zeta)%Z ->
  Trimer.G4f cost rij rik rjk eta zeta lamb =
  inr (G4f_value cost rij rik rjk eta zeta lamb).
Proof.
  intros H. unfold Trimer.G4f.
  rewrite math_pow_base_nonzero by lra. simpl.
  rewrite math_pow_exp_nonneg by exact H. reflexivity.
Qed.

Lemma div_inr (x y : R) : y <> 0 -> div x y = inr (x / y).
Proof.
  intros H. unfold div. destruct (Req_dec_T y 0); [contradiction | reflexivity].
Qed.

Definition no_param : R * Z * Z := (0, 0%Z, 0%Z).

Lemma G4_triplet_adds (n : nat) (atoms : list vec3) (p : list (R * Z * Z))
      (i j k : nat) :
  length atoms = n -> NoDup atoms ->
  Forall (fun t => (0 <= zeta_of t)%Z) p ->
  (i < n)%nat -> (j < n)%nat -> (k < n)%nat -> i <> j ->
  adds (ok2 n (length p)) ent2 (dom2 n (length p))
    (fun G4 =>
       if ((k =? i)%nat || (k =? j)%nat)%bool then ret G4 else
       ak <- getitem atoms k ;;
       let rik := norm (vsub (pos atoms i) ak) in
       let rjk := norm (vsub (pos atoms j) ak) in
       let cost := dot (vsub (pos atoms i) ak)
                       (vsub (pos atoms i) (pos atoms j)) in
       cost <- div cost (dist atoms i j * rik) ;;
       for_ (range (length p)) (fun q G4 =>
         ' (eta, zeta, lamb) <- getitem p q ;;
         v <- Trimer.G4f cost (dist atoms i j) rik rjk eta zeta lamb ;;
         iadd2 G4 i q v) G4)
    (fun x => if (fst x =? i)%nat
              then (if ((k =? i)%nat || (k =? j)%nat)%bool then 0
                    else G4f_value (cosine atoms i j k) (dist atoms i j)
                           (dist atoms i k) (dist atoms j k)
                           (fst (fst (nth (snd x) p no_param)))
                           (snd (fst (nth (snd x) p no_param)))
                           (snd (nth (snd x) p no_param)))
              else 0).
Proof.
  intros Hlen Hnd Hz Hi Hj Hk Hij.
  destruct ((k =? i)%nat || (k =? j)%nat)%bool eqn:Ek.
  - apply (adds_ext _ _ _ _ (fun _ => 0)); [|apply adds_ret].
    intros x _. destruct (fst x =? i)%nat; reflexivity.
  - apply orb_false_iff in Ek. destruct Ek as [Eki Ekj].
    apply Nat.eqb_neq in Eki, Ekj.
    rewrite (getitem_nth atoms k origin) by lia. simpl.
    fold (pos atoms k) (dist atoms i k) (dist atoms j k).
    assert (Hdij : 0 < dist atoms i j) by (apply dist_pos; auto; lia).
    assert (Hdik : 0 < dist atoms i k) by (apply dist_pos; auto; lia).
    rewrite div_inr by (apply Rgt_not_eq; apply Rmult_lt_0_compat; assumption).
    simpl. fold (cosine atoms i j k).
    apply (param_loop_adds n (length p) i _
             (fun q => G4f_value (cosine atoms i j k) (dist atoms i j)
                         (dist atoms i k) (dist atoms j k)
                         (fst (fst (nth q p no_param)))
                         (snd (fst (nth q p no_param)))
                         (snd (nth q p no_param)))).
    + exact Hi.
    + intros q G Hq. rewrite (getitem_nth p q no_param) by exact Hq. simpl.
      assert (Hzq : (0 <= zeta_of (nth q p no_param))%Z).
      { rewrite Forall_forall in Hz. apply Hz. apply nth_In. exact Hq. }
      destruct (nth q p no_param) as [[eta zeta] lamb]. simpl in *.
      rewrite G4f_inr by exact Hzq. reflexivity.
Qed.

Lemma G4_pair_adds (n : nat) (atoms : list vec3) (p : list (R * Z * Z))
      (i j : nat) :
  length atoms = n -> NoDup atoms ->
  Forall (fun t => (0 <= zeta_of t)%Z) p ->
  (i < n)%nat -> (j < n)%nat ->
  adds (ok2 n (length p)) ent2 (dom2 n (length p))
    (fun G4 =>
       if (i =? j)%nat then ret G4 else
       ai <- getitem atoms i ;;
       aj <- getitem atoms j ;;
       let rij := norm (vsub ai aj) in
       if Rgt_dec rij Rcut then ret G4 else
       for_ (range n) (fun k G4 =>
         if ((k =? i)%nat || (k =? j)%nat)%bool then ret G4 else
         ak <- getitem atoms k ;;
         let rik := norm (vsub ai ak) in
         let rjk := norm (vsub aj ak) in
         let cost := dot (vsub ai ak) (vsub ai aj) in
         cost <- div cost (rij * rik) ;;
         for_ (range (length p)) (fun q G4 =>
           ' (eta, zeta, lamb) <- getitem p q ;;
           v <- Trimer.G4f cost rij rik rjk eta zeta lamb ;;
           iadd2 G4 i q v) G4) G4)
    (fun x => if (fst x =? i)%nat
              then Rsum (map (G4_term atoms (nth (snd x) p no_param) i j) (range n))
              else 0).
Proof.
  intros Hlen Hnd Hz Hi Hj. unfold G4_term.
  destruct (i =? j)%nat eqn:Eij.
  - apply (adds_ext _ _ _ _ (fun _ => 0)); [|apply adds_ret].
    intros x _. destruct (fst x =? i)%nat; [|reflexivity].
    symmetry. apply Rsum_map_zero. reflexivity.
  - apply Nat.eqb_neq in Eij.
    rewrite (getitem_nth atoms i origin), (getitem_nth atoms j origin) by lia.
    simpl. fold (pos atoms i) (pos atoms j) (dist atoms i j).
    destruct (Rgt_dec (dist atoms i j) Rcut).
    + apply (adds_ext _ _ _ _ (fun _ => 0)); [|apply adds_ret].
      intros x _. destruct (fst x =? i)%nat; [|reflexivity].
      symmetry. apply Rsum_map_zero. reflexivity.
    + eapply adds_ext; [|apply for_adds; intros k Hk; apply in_seq in Hk;
                         apply (G4_triplet_adds n atoms p i j k); auto; lia].
      intros x _. simpl. apply Rsum_if_out.
Qed.

Lemma G4_closed (n : nat) (atoms : list vec3) (p : list (R * Z * Z)) :
  length atoms = n -> NoDup atoms ->
  Forall (fun t => (0 <= zeta_of t)%Z) p ->
  exists M, Trimer.G4 n atoms p = inr M /\ ok2 n (length p) M /\
    forall i q, (i < n)%nat -> (q < length p)%nat ->
      entry M i q =
      Rsum (map (fun j => Rsum (map (G4_term atoms (nth q p no_param) i j)
                                    (range n))) (range n)).
Proof.
  intros Hlen Hnd Hz.
  assert (H : adds (ok2 n (length p)) ent2 (dom2 n (length p))
                (fun G4 => for_ (range n) (fun i G4 =>
                  for_ (range n) (fun j G4 =>
                    if (i =? j)%nat then ret G4 else
                    ai <- getitem atoms i ;;
                    aj <- getitem atoms j ;;
                    let rij := norm (vsub ai aj) in
                    if Rgt_dec rij Rcut then ret G4 else
                    for_ (range n) (fun k G4 =>
                      if ((k =? i)%nat || (k =? j)%nat)%bool then ret G4 else
                      ak <- getitem atoms k ;;
                      let rik := norm (vsub ai ak) in
                      let rjk := norm (vsub aj ak) in
                      let cost := dot (vsub ai ak) (vsub ai aj) in
                      cost <- div cost (rij * rik) ;;
                      for_ (range (length p)) (fun q G4 =>
                        ' (eta, zeta, lamb) <- getitem p q ;;
                        v <- Trimer.G4f cost rij rik rjk eta zeta lamb ;;
                        iadd2 G4 i q v) G4) G4) G4) G4)
                (fun x => Rsum (map (fun i =>
                   Rsum (map (fun j => if (fst x =? i)%nat
                        then Rsum (map (G4_term atoms (nth (snd x) p no_param) i j)
                                       (range n))
                        else 0) (range n))) (range n)))).
  { apply for_adds. intros i Hi. apply in_seq in Hi.
    apply for_adds. intros j Hj. apply in_seq in Hj.
    apply G4_pair_adds; auto; lia. }
  destruct (H (zeros2 n (length p)) (zeros2_ok2 n (length p)))
    as (M & E & Hok & Hent).
  exists M. split; [exact E|]. split; [exact Hok|].
  intros i q Hi Hq. specialize (Hent (i, q) (conj Hi Hq)).
  unfold ent2 in Hent. simpl in Hent. rewrite Hent, zeros2_entry.
  rewrite (Rsum_map_ext _ (fun i0 => if (i =? i0)%nat
             then Rsum (map (fun j => Rsum (map (G4_term atoms (nth q p no_param) i0 j)
                                               (range n))) (range n)) else 0))
    by (intros i0 _; apply Rsum_if_out).
  rewrite Rsum_row_only by exact Hi. lra.
Qed.

(** ** Far atoms in the closed forms *)

Lemma G0_term_far (atoms : list vec3) (i j : nat) :
  dist atoms i j > Rcut -> G0_term atoms i j = 0.
Proof.
  intros H. unfold G0_term. destruct (i =? j)%nat; [reflexivity|].
  destruct (Rgt_dec (dist atoms i j) Rcut); [reflexivity | contradiction].
Qed.

Lemma G1_term_far (atoms : list vec3) (t : R * R) (i j : nat) :
  dist atoms i j > Rcut -> G1_term atoms t i j = 0.
Proof.
  intros H. unfold G1_term. destruct (i =? j)%nat; [reflexivity|].
  destruct (Rgt_dec (dist atoms i j) Rcut); [reflexivity | contradiction].
Qed.

Lemma G4_term_far_ij (atoms : list vec3) (t : R * Z * Z) (i j k : nat) :
  dist atoms i j > Rcut -> G4_term atoms t i j k = 0.
Proof.
  intros H. unfold G4_term. destruct (i =? j)%nat; [reflexivity|].
  destruct (Rgt_dec (dist atoms i j) Rcut); [reflexivity | contradiction].
Qed.

(** ** Values of the cutoff function used below *)

Lemma Trimer_fcut_half : Trimer.fcut 2.5 = 1 / 2.
Proof.
  unfold Trimer.fcut. rewrite Rcut_val.
  replace (PI * 2.5 / 5) with (PI / 2) by lra.
  rewrite cos_PI2. lra.
Qed.

Lemma Trimer_fcut_three_halves : Trimer.fcut 7.5 = 1 / 2.
Proof.
  unfold Trimer.fcut. rewrite Rcut_val.
  replace (PI * 7.5 / 5) with (3 * (PI / 2)) by lra.
  rewrite cos_3PI2. lra.
Qed.

Lemma Trimer_fcut_double : Trimer.fcut 10 = 1.
Proof.
  unfold Trimer.fcut. rewrite Rcut_val.
  replace (PI * 10 / 5) with (2 * PI) by lra.
  rewrite cos_2PI. lra.
Qed.

Lemma dist_on_x_axis (a b : R) :
  norm (vsub (mk_vec3 a 0 0) (mk_vec3 b 0 0)) = Rabs (b - a).
Proof.
  unfold norm, dot, vsub. simpl.
  replace ((a - b) * (a - b) + (0 - 0) * (0 - 0) + (0 - 0) * (0 - 0))
    with (Rsqr (b - a)) by (unfold Rsqr; ring).
  apply sqrt_Rsqr_abs.
Qed.

(** A collinear trimer: the second atom is inside the cutoff sphere of
    the first one, the third atom is outside. *)
Definition far_atoms : list vec3 :=
  [ mk_vec3 0 0 0; mk_vec3 2.5 0 0; mk_vec3 10 0 0 ].

Lemma far_atoms_NoDup : NoDup far_atoms.
Proof.
  unfold far_atoms.
  repeat constructor; simpl; intuition; try (match goal with
    | H : mk_vec3 _ _ _ = mk_vec3 _ _ _ |- _ => inversion H; lra end).
Qed.

Lemma far_dist_01 : dist far_atoms 0 1 = 2.5.
Proof.
  unfold dist, pos, far_atoms. simpl.
  rewrite dist_on_x_axis, Rabs_pos_eq; lra.
Qed.

Lemma far_dist_02 : dist far_atoms 0 2 = 10.
Proof.
  unfold dist, pos, far_atoms. simpl.
  rewrite dist_on_x_axis, Rabs_pos_eq; lra.
Qed.

Lemma far_dist_12 : dist far_atoms 1 2 = 7.5.
Proof.
  unfold dist, pos, far_atoms. simpl.
  rewrite dist_on_x_axis, Rabs_pos_eq; lra.
Qed.

Lemma far_cosine : cosine far_atoms 0 1 2 = 1.
Proof.
  unfold cosine. rewrite far_dist_01, far_dist_02.
  unfold pos, far_atoms, dot, vsub. simpl. lra.
Qed.

Lemma p_G4_zeta_nonneg : Forall (fun t => (0 <= zeta_of t)%Z) Trimer.p_G4.
Proof. unfold Trimer.p_G4, zeta_of. repeat constructor; simpl; lia. Qed.

Lemma far_G4_term_012 :
  G4_term far_atoms (0.4, 1%Z, 1%Z) 0 1 2 = exp (- 65) / 2.
Proof.
  unfold G4_term. simpl.
  rewrite far_dist_01, far_dist_02, far_dist_12, far_cosine.
  destruct (Rgt_dec 2.5 Rcut) as [H|_]; [rewrite Rcut_val in H; lra|].
  unfold G4f_value.
  rewrite Trimer_fcut_half, Trimer_fcut_three_halves, Trimer_fcut_double.
  replace (- (0.4) * (2.5 * 2.5 + 10 * 10 + 7.5 * 7.5)) with (- 65) by lra.
  change (powerRZ 2 (1 - 1)) with 1.
  change (powerRZ (1 + 1 * 1) 1) with ((1 + 1 * 1) * 1).
  lra.
Qed.

Lemma G4_term_diag (atoms : list vec3) (t : R * Z * Z) (i k : nat) :
  G4_term atoms t i i k = 0.
Proof. unfold G4_term. rewrite Nat.eqb_refl. reflexivity. Qed.

Lemma G4_term_k_is_i (atoms : list vec3) (t : R * Z * Z) (i j : nat) :
  G4_term atoms t i j i = 0.
Proof.
  unfold G4_term. rewrite Nat.eqb_refl. simpl.
  destruct (i =? j)%nat; [reflexivity|].
  destruct (Rgt_dec (dist atoms i j) Rcut); reflexivity.
Qed.

Lemma G4_term_k_is_j (atoms : list vec3) (t : R * Z * Z) (i j : nat) :
  G4_term atoms t i j j = 0.
Proof.
  unfold G4_term. rewrite Nat.eqb_refl, orb_true_r.
  destruct (i =? j)%nat; [reflexivity|].
  destruct (Rgt_dec (dist atoms i j) Rcut); reflexivity.
Qed.

(** ** The closed form of the two-body descriptor *)

Definition Rleb (x y : R) : bool := if Rle_dec x y then true else false.

(** The atoms [j] other than [i] with [r_ij] at most [Rcut]. *)
Definition neighbours (n : nat) (atoms : list vec3) (i : nat) : list nat :=
  filter (fun j => negb (j =? i)%nat && Rleb (dist atoms i j) Rcut) (range n).

(** The sum over the neighbours [j] of [i] of
    [exp(-eta*(r_ij - Rs)^2) * fcut(r_ij)], for a cutoff function [fc]. *)
Definition G1_sum (fc : R -> R) (n : nat) (atoms : list vec3) (i : nat)
           (eta Rs : R) : R :=
  Rsum (map (fun j => exp (- eta * (dist atoms i j - Rs) ^ 2) * fc (dist atoms i j))
            (neighbours n atoms i)).

Lemma G1_term_neighbours (n : nat) (atoms : list vec3) (i : nat) (eta Rs : R) :
  Rsum (map (G1_term atoms (eta, Rs) i) (range n)) =
  G1_sum Trimer.fcut n atoms i eta Rs.
Proof.
  unfold G1_sum, neighbours. rewrite <- Rsum_filter.
  apply Rsum_map_ext. intros j _. unfold G1_term, Rleb. simpl.
  rewrite (Nat.eqb_sym j i).
  destruct (i =? j)%nat; simpl; [reflexivity|].
  destruct (Rgt_dec (dist atoms i j) Rcut) as [H|H];
    destruct (Rle_dec (dist atoms i j) Rcut) as [H'|H']; try lra.
  rewrite Trimer_G1f_fcut. f_equal. f_equal. ring.
Qed.

Lemma G1_sum_fcut_agree (n : nat) (atoms : list vec3) (i : nat) (eta Rs : R) :
  G1_sum Dimer.fcut n atoms i eta Rs = G1_sum Trimer.fcut n atoms i eta Rs.
Proof.
  unfold G1_sum. apply Rsum_map_ext. intros j Hj.
  unfold neighbours in Hj. apply filter_In in Hj. destruct Hj as [_ Hj].
  apply andb_true_iff in Hj. destruct Hj as [_ Hj]. unfold Rleb in Hj.
  destruct (Rle_dec (dist atoms i j) Rcut) as [H|H]; [|discriminate].
  rewrite fcut_agree by exact H. reflexivity.
Qed.

Lemma G0_term_neighbours (n : nat) (atoms : list vec3) (i : nat) :
  Rsum (map (G0_term atoms i) (range n)) =
  Rsum (map (fun j => Trimer.fcut (dist atoms i j)) (neighbours n atoms i)).
Proof.
  unfold neighbours. rewrite <- Rsum_filter.
  apply Rsum_map_ext. intros j _. unfold G0_term, Rleb.
  rewrite (Nat.eqb_sym j i).
  destruct (i =? j)%nat; simpl; [reflexivity|].
  destruct (Rgt_dec (dist atoms i j) Rcut) as [H|H];
    destruct (Rle_dec (dist atoms i j) Rcut) as [H'|H']; try lra; reflexivity.
Qed.

(** An atom [j] farther than [Rcut] from the central atom [i] adds
    nothing to [G0[i]] and to [G1[i]], and no triplet through such a [j]
    adds to [G4[i]]. *)
Lemma hard_cutoff_on_rij (atoms : list vec3) (t1 : R * R) (t4 : R * Z * Z)
      (i j k : nat) :
  dist atoms i j > Rcut ->
  G0_term atoms i j = 0 /\ G1_term atoms t1 i j = 0 /\ G4_term atoms t4 i j k = 0.
Proof.
  intros H. split; [apply G0_term_far; exact H|].
  split; [apply G1_term_far; exact H | apply G4_term_far_ij; exact H].
Qed.

(** C1 (evaluation at the input where the code departs from the claim).
    In the collinear trimer (0,0,0), (2.5,0,0), (10,0,0) the third atom is
    at distance 10 from the first one, beyond [Rcut] = 5, yet the triplet
    made of the three atoms adds [exp(-65)/2] to [G4[0,0]]: the loop of
    [G4] tests only [rij] against the cutoff and the trimer's [fcut] does
    not vanish beyond it. *)
Theorem C1_G4_far_triplet_counts :
  dist far_atoms 0 2 > Rcut /\
  G4_term far_atoms (0.4, 1%Z, 1%Z) 0 1 2 <> 0 /\
  exists M, Trimer.G4 3 far_atoms Trimer.p_G4 = inr M /\
            entry M 0 0 = exp (- 65) / 2 /\ entry M 0 0 <> 0.
Proof.
  assert (Hpos : exp (- 65) / 2 <> 0).
  { pose proof (exp_pos (- 65)). lra. }
  split; [rewrite far_dist_02, Rcut_val; lra|].
  split; [rewrite far_G4_term_012; exact Hpos|].
  destruct (G4_closed 3 far_atoms Trimer.p_G4 eq_refl far_atoms_NoDup
              p_G4_zeta_nonneg) as (M & E & _ & Hent).
  exists M. split; [exact E|].
  assert (Hval : entry M 0 0 = exp (- 65) / 2).
  { rewrite (Hent 0%nat 0%nat) by (simpl; lia).
    change (nth 0 Trimer.p_G4 no_param) with (0.4, 1%Z, 1%Z).
    unfold range. simpl.
    rewrite !G4_term_diag, !G4_term_k_is_i, !G4_term_k_is_j.
    rewrite far_G4_term_012.
    rewrite !(G4_term_far_ij far_atoms _ 0 2)
      by (rewrite far_dist_02, Rcut_val; lra).
    lra. }
  split; [exact Hval | rewrite Hval; exact Hpos].
Qed.

(** C2 (evaluation at the input where the code departs from the claim).
    At the distance 10, twice the cutoff radius, the dimer notebook's
    [fcut] returns 0 but the trimer notebook's [fcut], which has no test
    against [Rcut], returns 1. *)
Theorem C2_trimer_fcut_beyond_cutoff :
  10 > Rcut /\ Dimer.fcut 10 = 0 /\ Trimer.fcut 10 = 1.
Proof.
  split; [rewrite Rcut_val; lra|]. split.
  - apply Dimer_fcut_beyond. rewrite Rcut_val. lra.
  - exact Trimer_fcut_double.
Qed.

(** C4.  For every atom [i] and every parameter pair [(eta, Rs)] of the
    list [p], the entry [G1[i,k]] computed by the loops of the trimer
    notebook is the sum over the other atoms [j] with [r_ij <= Rcut] of
    [exp(-eta*(r_ij - Rs)^2) * fcut(r_ij)]; the sum is the same with the
    [fcut] of either notebook, and the dimer notebook's [G1f] is one term
    of that form. *)
Theorem C4_G1_closed_form (atoms : list vec3) (p : list (R * R)) :
  exists M, Trimer.G1 (length atoms) atoms p = inr M /\
    (forall i k eta Rs,
        (i < length atoms)%nat -> nth_error p k = Some (eta, Rs) ->
        entry M i k = G1_sum Trimer.fcut (length atoms) atoms i eta Rs /\
        entry M i k = G1_sum Dimer.fcut (length atoms) atoms i eta Rs) /\
    (forall r eta Rs,
        Dimer.G1f r eta Rs = exp (- eta * (r - Rs) ^ 2) * Dimer.fcut r).
Proof.
  destruct (G1_closed (length atoms) atoms p eq_refl) as (M & E & _ & Hent).
  exists M. split; [exact E|]. split.
  - intros i k eta Rs Hi Hk.
    assert (Hlt : (k < length p)%nat).
    { apply nth_error_Some. rewrite Hk. discriminate. }
    rewrite G1_sum_fcut_agree.
    assert (entry M i k = G1_sum Trimer.fcut (length atoms) atoms i eta Rs);
      [|split; assumption].
    rewrite (Hent i k Hi Hlt).
    rewrite (nth_error_nth p k (0, 0) Hk).
    apply G1_term_neighbours.
  - intros r eta Rs. unfold Dimer.G1f. f_equal. f_equal. ring.
Qed.

Lemma C4_G1_closed_form_witness :
  exists M, Trimer.G1 3 Trimer.atoms Trimer.p_G1 = inr M /\
    entry M 0 1 = G1_sum Trimer.fcut 3 Trimer.atoms 0 0.4 0.5.
Proof.
  destruct (C4_G1_closed_form Trimer.atoms Trimer.p_G1) as (M & E & H & _).
  exists M. split; [exact E|].
  apply (H 0%nat 1%nat 0.4 0.5); [simpl; lia | reflexivity].
Defined.

(** ** Reordering the atoms *)

Lemma map_nth_range {A : Type} (l : list A) (d : A) :
  map (fun j => nth j l d) (range (length l)) = l.
Proof.
  apply (nth_ext _ _ d d).
  - rewrite length_map. apply length_seq.
  - intros k Hk. rewrite length_map in Hk. unfold range in *.
    rewrite length_seq in Hk.
    rewrite (nth_indep _ d (nth 0 l d)) by (rewrite length_map, length_seq; exact Hk).
    rewrite (map_nth (fun j => nth j l d) (seq 0 (length l)) 0%nat k).
    rewrite seq_nth by exact Hk. reflexivity.
Qed.

(** The coordinate array whose row [j] is row [perm[j]] of [atoms]. *)
Definition reorder (atoms : list vec3) (perm : list nat) : list vec3 :=
  map (pos atoms) perm.

Section Reorder.

Variable atoms : list vec3.
Variable perm : list nat.
Variable i : nat.
Hypothesis Hperm : Permutation perm (range (length atoms)).
Hypothesis Hfix : nth_error perm i = Some i.

Let n := length atoms.
Let sigma (j : nat) : nat := nth j perm 0%nat.

Lemma perm_length : length perm = n.
Proof.
  rewrite (Permutation_length Hperm). apply length_seq.
Qed.

Lemma reorder_perm : Permutation (reorder atoms perm) atoms.
Proof.
  unfold reorder.
  rewrite <- (map_nth_range atoms origin) at 2.
  apply Permutation_map. exact Hperm.
Qed.

Lemma reorder_length : length (reorder atoms perm) = n.
Proof. apply (Permutation_length reorder_perm). Qed.

Lemma central_lt : (i < n)%nat.
Proof.
  rewrite <- perm_length. apply nth_error_Some. rewrite Hfix. discriminate.
Qed.

Lemma sigma_fix : sigma i = i.
Proof. unfold sigma. apply nth_error_nth. exact Hfix. Qed.

Lemma sigma_inj (j k : nat) :
  (j < n)%nat -> (k < n)%nat -> sigma j = sigma k -> j = k.
Proof.
  intros Hj Hk E.
  assert (Hnd : NoDup perm).
  { apply (Permutation_NoDup (Permutation_sym Hperm)). apply seq_NoDup. }
  apply (proj1 (NoDup_nth perm 0%nat) Hnd); rewrite ?perm_length; assumption.
Qed.

Lemma sigma_eqb (j k : nat) :
  (j < n)%nat -> (k < n)%nat -> (sigma j =? sigma k)%nat = (j =? k)%nat.
Proof.
  intros Hj Hk. destruct (j =? k)%nat eqn:E.
  - apply Nat.eqb_eq in E. subst k. apply Nat.eqb_refl.
  - apply Nat.eqb_neq. intros H. apply Nat.eqb_neq in E. apply E.
    apply sigma_inj; assumption.
Qed.

Lemma reorder_pos (j : nat) :
  (j < n)%nat -> pos (reorder atoms perm) j = pos atoms (sigma j).
Proof.
  intros Hj. unfold pos at 1, reorder.
  rewrite (nth_indep _ origin (pos atoms 0%nat))
    by (rewrite length_map, perm_length; exact Hj).
  apply (map_nth (pos atoms) perm 0%nat j).
Qed.

Lemma reorder_dist (j k : nat) :
  (j < n)%nat -> (k < n)%nat ->
  dist (reorder atoms perm) j k = dist atoms (sigma j) (sigma k).
Proof.
  intros Hj Hk. unfold dist. rewrite !reorder_pos by assumption. reflexivity.
Qed.

Lemma Rsum_reindex (f : nat -> R) :
  Rsum (map (fun j => f (sigma j)) (range n)) = Rsum (map f (range n)).
Proof.
  rewrite <- (map_map sigma f).
  unfold sigma. rewrite <- perm_length at 1.
  rewrite (map_nth_range perm 0%nat).
  apply Rsum_perm. apply Permutation_map. exact Hperm.
Qed.

Lemma reorder_G0_term (j : nat) :
  (j < n)%nat ->
  G0_term (reorder atoms perm) i j = G0_term atoms i (sigma j).
Proof.
  intros Hj. pose proof central_lt as Hi. unfold G0_term.
  rewrite reorder_dist by assumption. rewrite sigma_fix.
  rewrite <- (sigma_eqb i j) by assumption. rewrite sigma_fix. reflexivity.
Qed.

Lemma reorder_G1_term (t : R * R) (j : nat) :
  (j < n)%nat ->
  G1_term (reorder atoms perm) t i j = G1_term atoms t i (sigma j).
Proof.
  intros Hj. pose proof central_lt as Hi. unfold G1_term.
  rewrite reorder_dist by assumption. rewrite sigma_fix.
  rewrite <- (sigma_eqb i j) by assumption. rewrite sigma_fix. reflexivity.
Qed.

Lemma reorder_G4_term (t : R * Z * Z) (j k : nat) :
  (j < n)%nat -> (k < n)%nat ->
  G4_term (reorder atoms perm) t i j k = G4_term atoms t i (sigma j) (sigma k).
Proof.
  intros Hj Hk. pose proof central_lt as Hi. unfold G4_term, cosine.
  rewrite !reorder_dist, !reorder_pos by assumption. rewrite sigma_fix.
  rewrite <- (sigma_eqb i j), <- (sigma_eqb k i), <- (sigma_eqb k j)
    by assumption.
  rewrite sigma_fix. reflexivity.
Qed.

Lemma reorder_G0_sum :
  Rsum (map (G0_term (reorder atoms perm) i) (range n)) =
  Rsum (map (G0_term atoms i) (range n)).
Proof.
  rewrite <- (Rsum_reindex (G0_term atoms i)).
  apply Rsum_map_ext. intros j Hj. apply in_seq in Hj.
  apply reorder_G0_term. lia.
Qed.

Lemma reorder_G1_sum (t : R * R) :
  Rsum (map (G1_term (reorder atoms perm) t i) (range n)) =
  Rsum (map (G1_term atoms t i) (range n)).
Proof.
  rewrite <- (Rsum_reindex (G1_term atoms t i)).
  apply Rsum_map_ext. intros j Hj. apply in_seq in Hj.
  apply reorder_G1_term. lia.
Qed.

Lemma reorder_G4_sum (t : R * Z * Z) :
  Rsum (map (fun j => Rsum (map (G4_term (reorder atoms perm) t i j) (range n)))
            (range n)) =
  Rsum (map (fun j => Rsum (map (G4_term atoms t i j) (range n))) (range n)).
Proof.
  rewrite <- (Rsum_reindex
                (fun j => Rsum (map (G4_term atoms t i j) (range n)))).
  apply Rsum_map_ext. intros j Hj. apply in_seq in Hj.
  rewrite <- (Rsum_reindex (G4_term atoms t i (sigma j))).
  apply Rsum_map_ext. intros k Hk. apply in_seq in Hk.
  apply reorder_G4_term; lia.
Qed.

End Reorder.

Lemma ok2_same_row (r c : nat) (M M' : ndarray) (i : nat) :
  ok2 r c M -> ok2 r c M' -> (i < r)%nat ->
  (forall k, (k < c)%nat -> entry M' i k = entry M i k) ->
  nth i (rows M') [] = nth i (rows M) [].
Proof.
  intros HM HM' Hi Hent.
  pose proof (ok2_row_length r c M i HM Hi) as HL.
  pose proof (ok2_row_length r c M' i HM' Hi) as HL'.
  apply (nth_ext _ _ 0 0).
  - lia.
  - intros k Hk. apply Hent. lia.
Qed.

Lemma Trimer_cos_theta_pos : 0 < cos Trimer.theta.
Proof.
  unfold Trimer.theta. pose proof PI_RGT_0. apply cos_gt_0; lra.
Qed.

Lemma Trimer_atoms_NoDup : NoDup Trimer.atoms.
Proof.
  pose proof Trimer_cos_theta_pos as Hc. unfold Trimer.atoms.
  repeat constructor; simpl; intuition; try (match goal with
    | H : mk_vec3 _ _ _ = mk_vec3 _ _ _ |- _ => inversion H; lra end).
Qed.

(** C5.  Let [perm] be a reordering of the row indices of [atoms] that
    keeps the central atom [i] in its row.  The values [G0[i]] and the
    rows [G1[i]] (one value per parameter pair) computed from the
    reordered array are those computed from [atoms]; when the positions
    are pairwise distinct (and no exponent zeta is negative) the same
    holds for the row [G4[i]] (one value per parameter triple). *)
Theorem C5_permutation_invariance
        (atoms : list vec3) (perm : list nat) (i : nat)
        (p1 : list (R * R)) (p4 : list (R * Z * Z)) :
  Permutation perm (range (length atoms)) ->
  nth_error perm i = Some i ->
  (exists g g' M M',
      Trimer.G0 (length atoms) atoms = inr g /\
      Trimer.G0 (length atoms) (reorder atoms perm) = inr g' /\
      Trimer.G1 (length atoms) atoms p1 = inr M /\
      Trimer.G1 (length atoms) (reorder atoms perm) p1 = inr M' /\
      nth i g' 0 = nth i g 0 /\
      nth i (rows M') [] = nth i (rows M) []) /\
  (NoDup atoms -> Forall (fun t => (0 <= zeta_of t)%Z) p4 ->
   exists M M',
      Trimer.G4 (length atoms) atoms p4 = inr M /\
      Trimer.G4 (length atoms) (reorder atoms perm) p4 = inr M' /\
      nth i (rows M') [] = nth i (rows M) []).
Proof.
  intros Hperm Hfix.
  pose proof (central_lt atoms perm i Hperm Hfix) as Hi.
  pose proof (reorder_length atoms perm Hperm) as Hlen'.
  split.
  - destruct (G0_closed (length atoms) atoms eq_refl) as (g & Eg & _ & Hg).
    destruct (G0_closed (length atoms) (reorder atoms perm) Hlen')
      as (g' & Eg' & _ & Hg').
    destruct (G1_closed (length atoms) atoms p1 eq_refl) as (M & EM & HokM & HM).
    destruct (G1_closed (length atoms) (reorder atoms perm) p1 Hlen')
      as (M' & EM' & HokM' & HM').
    exists g, g', M, M'. repeat (split; [assumption|]). split.
    + rewrite Hg, Hg' by exact Hi. apply reorder_G0_sum; assumption.
    + apply (ok2_same_row (length atoms) (length p1)); try assumption.
      intros k Hk. rewrite HM, HM' by assumption.
      apply reorder_G1_sum; assumption.
  - intros Hnd Hz.
    assert (Hnd' : NoDup (reorder atoms perm)).
    { apply (Permutation_NoDup (Permutation_sym (reorder_perm atoms perm Hperm))).
      exact Hnd. }
    destruct (G4_closed (length atoms) atoms p4 eq_refl Hnd Hz)
      as (M & EM & HokM & HM).
    destruct (G4_closed (length atoms) (reorder atoms perm) p4 Hlen' Hnd' Hz)
      as (M' & EM' & HokM' & HM').
    exists M, M'. repeat (split; [assumption|]).
    apply (ok2_same_row (length atoms) (length p4)); try assumption.
    intros q Hq. rewrite HM, HM' by assumption.
    apply reorder_G4_sum; assumption.
Qed.

Lemma C5_permutation_invariance_witness :
  Permutation [0; 2; 1]%nat (range (length Trimer.atoms)) /\
  nth_error [0; 2; 1]%nat 0 = Some 0%nat /\
  NoDup Trimer.atoms /\
  Forall (fun t => (0 <= zeta_of t)%Z) Trimer.p_G4 /\
  (exists M M',
      Trimer.G4 3 Trimer.atoms Trimer.p_G4 = inr M /\
      Trimer.G4 3 (reorder Trimer.atoms [0; 2; 1]%nat) Trimer.p_G4 = inr M' /\
      nth 0 (rows M') [] = nth 0 (rows M) []).
Proof.
  assert (Hp : Permutation [0; 2; 1]%nat (range (length Trimer.atoms))).
  { simpl. apply perm_skip. apply perm_swap. }
  split; [exact Hp|]. split; [reflexivity|].
  split; [exact Trimer_atoms_NoDup|]. split; [exact p_G4_zeta_nonneg|].
  exact (proj2 (C5_permutation_invariance Trimer.atoms [0; 2; 1]%nat 0
                  Trimer.p_G1 Trimer.p_G4 Hp eq_refl)
               Trimer_atoms_NoDup p_G4_zeta_nonneg).
Defined.

(** ** Where the trimer loops raise

    The loops of the trimer notebook read the rows 0, 1 and 2 of [atoms],
    and numpy and [math] work on binary64 numbers: a distance can
    overflow to infinity or underflow to zero.  The module below follows
    the loop of [G4] on binary64 numbers.  Addition, subtraction,
    multiplication, division and the square root are the IEEE 754
    operations; [numpy.linalg.norm] of a row is the square root of its
    scalar product with itself; a numpy division by zero gives an
    infinity or a NaN and raises nothing.  The C library behind the
    [math] module is a parameter: [math.cos] raises [ValueError] on an
    infinite argument and returns the library's value otherwise, and
    [math.exp] and [math.pow] return a number or raise, as the library
    and Python's error checks decide. *)

From Stdlib Require Floats.

Module Binary64.
Import Floats.
Local Open Scope float_scope.
Local Set Warnings "-inexact-float".

Inductive exn : Type :=
| IndexError
| ValueError
| OverflowError.

Definition res (A : Type) : Type := (exn + A)%type.

Definition and_then {A B : Type} (m : res A) (f : A -> res B) : res B :=
  match m with
  | inl e => inl e
  | inr a => f a
  end.

Local Notation "x <~ m ;; k" := (and_then m (fun x => k))
  (at level 61, m at next level, right associativity).
Local Notation "' pat <~ m ;; k" :=
  (and_then m (fun x => match x with pat => k end))
  (at level 61, pat pattern, m at next level, right associativity).

Fixpoint loop {A S : Type} (l : list A) (body : A -> S -> res S) (s : S)
  : res S :=
  match l with
  | [] => inr s
  | a :: l' => s' <~ body a s ;; loop l' body s'
  end.

Definition item {A : Type} (l : list A) (i : nat) : res A :=
  match nth_error l i with
  | Some a => inr a
  | None => inl IndexError
  end.

Fixpoint put {A : Type} (l : list A) (i : nat) (v : A) : list A :=
  match l, i with
  | [], _ => []
  | _ :: l', O => v :: l'
  | a :: l', S i' => a :: put l' i' v
  end.

(** [M[i,k] += v] *)
Definition iadd2 (M : list (list float)) (i k : nat) (v : float)
  : res (list (list float)) :=
  row <~ item M i ;;
  x <~ item row k ;;
  inr (put M i (put row k (x + v))).

Definition zeros2 (n m : nat) : list (list float) := repeat (repeat 0 m) n.

(** A row of the coordinate array. *)
Definition vec : Type := (float * float * float)%type.

Definition vsub (u v : vec) : vec :=
  let '(ux, uy, uz) := u in
  let '(wx, wy, wz) := v in (ux - wx, uy - wy, uz - wz).

Definition dot (u v : vec) : float :=
  let '(ux, uy, uz) := u in
  let '(wx, wy, wz) := v in ux * wx + uy * wy + uz * wz.

Definition norm (u : vec) : float := sqrt (dot u u).

Record libm : Type := mk_libm {
  c_cos : float -> float;
  math_exp : float -> res float;
  math_pow : float -> float -> res float }.

Definition math_pi : float := 3.141592653589793.

Definition Rcut : float := 5.0.

Definition math_cos (m : libm) (x : float) : res float :=
  if is_infinity x then inl ValueError else inr (c_cos m x).

Definition fcut (m : libm) (r : float) : res float :=
  c <~ math_cos m (math_pi * r / Rcut) ;;
  inr ((c + 1) * 0.5).

(** The exponent [zeta] and the sign [lamb] are Python integers; they
    reach [math.pow] and the product with [cost] as the binary64 numbers
    of the same value, which is how they are kept here. *)
Definition G4f (m : libm) (cost rij rik rjk eta zeta lamb : float)
  : res float :=
  a <~ math_pow m 2 (1 - zeta) ;;
  b <~ math_pow m (1 + lamb * cost) zeta ;;
  let result := a * b in
  e <~ math_exp m (- eta * (rij * rij + rik * rik + rjk * rjk)) ;;
  let result := result * e in
  f1 <~ fcut m rij ;;
  f2 <~ fcut m rjk ;;
  f3 <~ fcut m rik ;;
  inr (result * f1 * f2 * f3).

Definition p_G4 : list (float * float * float) :=
  [(0.4, 1, 1); (0.4, 2, 1); (0.4, 3, 1); (0.8, 1, 1); (0.8, 2, 1)].

Definition G4 (m : libm) (atoms : list vec) (p : list (float * float * float))
  : res (list (list float)) :=
  loop (range 3) (fun i G4 =>
    loop (range 3) (fun j G4 =>
      if (i =? j)%nat then inr G4 else
      ai <~ item atoms i ;;
      aj <~ item atoms j ;;
      let rij := norm (vsub ai aj) in
      if Rcut <? rij then inr G4 else
      loop (range 3) (fun k G4 =>
        if ((k =? i)%nat || (k =? j)%nat)%bool then inr G4 else
        ak <~ item atoms k ;;
        let rik := norm (vsub ai ak) in
        let rjk := norm (vsub aj ak) in
        let cost := dot (vsub ai ak) (vsub ai aj) in
        let cost := cost / (rij * rik) in
        loop (range (length p)) (fun q G4 =>
          ' (eta, zeta, lamb) <~ item p q ;;
          v <~ G4f m cost rij rik rjk eta zeta lamb ;;
          iadd2 G4 i q v) G4) G4) G4) (zeros2 3 (length p)).











End Binary64.



(** ** The range in which the trimer loops return

    Coordinates of absolute value at most [1e100] and atoms at least
    [1e-100] apart keep every square, sum and product of the loops
    between the overflow and the underflow threshold of binary64. *)










(** ** The [acsf] matrix of the dimer notebook *)

Lemma fold_left_id {A : Type} (l : list A) (v : R) :
  fold_left (fun v _ => v) l v = v.
Proof. induction l as [|a l IH]; simpl; auto. Qed.

(** A loop over [seq a m] in which only the iteration [c - b] touches the
    cell. *)
Lemma fold_left_once (c b : nat) (g : nat -> R -> R) (a m : nat) (v : R) :
  fold_left (fun v p => if (c =? b + p)%nat then g p v else v) (seq a m) v =
  if ((b + a <=? c)%nat && (c <? b + a + m)%nat)%bool
  then g (c - b)%nat v else v.
Proof.
  revert a v. induction m as [|m IH]; intros a v; simpl.
  - destruct (b + a <=? c)%nat eqn:E1, (c <? b + a + 0)%nat eqn:E2;
      simpl; try reflexivity.
    apply Nat.leb_le in E1. apply Nat.ltb_lt in E2. lia.
  - rewrite IH. destruct (c =? b + a)%nat eqn:E.
    + apply Nat.eqb_eq in E.
      replace (b + S a <=? c)%nat with false by (symmetry; apply Nat.leb_gt; lia).
      replace (b + a <=? c)%nat with true by (symmetry; apply Nat.leb_le; lia).
      replace (c <? b + a + S m)%nat with true by (symmetry; apply Nat.ltb_lt; lia).
      simpl. replace (c - b)%nat with a by lia. reflexivity.
    + apply Nat.eqb_neq in E.
      destruct (b + S a <=? c)%nat eqn:E1.
      * apply Nat.leb_le in E1.
        replace (b + a <=? c)%nat with true by (symmetry; apply Nat.leb_le; lia).
        replace (b + S a + m)%nat with (b + a + S m)%nat by lia. reflexivity.
      * apply Nat.leb_gt in E1.
        replace (b + a <=? c)%nat with false by (symmetry; apply Nat.leb_gt; lia).
        reflexivity.
Qed.

(** The value the fill loop stores in column [c] of the row of the
    distance [r]: [fcut(r)] in column 0, [G1f(r, eta, Rs)] for the
    parameter pair number [c - 1] in the columns after it. *)
Definition acsf_value (params : list (R * R)) (r : R) (c : nat) : R :=
  match c with
  | O => Dimer.fcut r
  | S p => Dimer.G1f r (fst (nth p params (0, 0))) (snd (nth p params (0, 0)))
  end.

Lemma acsf_row_updates (n : nat) (dists : list R) (params : list (R * R))
      (k : nat) :
  length dists = n -> (k < n)%nat ->
  updates (ok2 n (1 + length params)) ent2 (dom2 n (1 + length params))
    (fun acsf =>
       r <- getitem dists k ;;
       acsf <- set2 acsf k 0 (Dimer.fcut r) ;;
       for_ (range (length params)) (fun p acsf =>
         ' (eta, rs) <- getitem params p ;;
         set2 acsf k (1 + p) (Dimer.G1f r eta rs)) acsf)
    (fun x v => if (fst x =? 0 + k)%nat
                then acsf_value params (nth k dists 0) (snd x) else v).
Proof.
  intros Hlen Hk.
  rewrite (getitem_nth dists k 0) by lia. simpl bind.
  set (r := nth k dists 0).
  eapply updates_ext;
    [|apply (updates_seq _ _ _
               (fun acsf => set2 acsf k 0 (Dimer.fcut r))
               (for_ (range (length params)) (fun p acsf =>
                  ' (eta, rs) <- getitem params p ;;
                  set2 acsf k (1 + p) (Dimer.G1f r eta rs))));
      [apply set2_updates; lia|
       apply (for_updates _ _ _ _ _
                (fun p x v => if hit k (1 + p) x then acsf_value params r (S p) else v));
       intros p Hp; apply in_seq in Hp; intros M HM;
       rewrite (getitem_nth params p (0, 0)) by lia; simpl;
       destruct (nth p params (0, 0)) as [eta rs]; simpl;
       apply (set2_updates n (S (length params)) k (S p)); [lia | lia | exact HM]]].
  intros [i c] v [_ Hc]. simpl in *. unfold hit. simpl.
  destruct (i =? k)%nat; simpl.
  - unfold range.
    rewrite (fold_left_once c 1
               (fun p _ => Dimer.G1f r (fst (nth p params (0, 0)))
                                      (snd (nth p params (0, 0))))).
    destruct c as [|c]; simpl; [reflexivity|].
    match goal with
    | |- (if ?b then _ else _) = _ =>
        replace b with true by (symmetry; apply Nat.ltb_lt; lia)
    end.
    rewrite ?Nat.sub_0_r. reflexivity.
  - apply fold_left_id.
Qed.

Lemma acsf_fill_closed (dists : list R) (params : list (R * R)) :
  exists M, Dimer.acsf_fill dists params = inr M /\
    ok2 (length dists) (1 + length params) M /\
    forall k c, (k < length dists)%nat -> (c < 1 + length params)%nat ->
      entry M k c = acsf_value params (nth k dists 0) c.
Proof.
  assert (H : updates (ok2 (length dists) (1 + length params)) ent2
                (dom2 (length dists) (1 + length params))
                (for_ (range (length dists)) (fun k acsf =>
                   r <- getitem dists k ;;
                   acsf <- set2 acsf k 0 (Dimer.fcut r) ;;
                   for_ (range (length params)) (fun p acsf =>
                     ' (eta, rs) <- getitem params p ;;
                     set2 acsf k (1 + p) (Dimer.G1f r eta rs)) acsf))
                (fun x v => fold_left (fun v k =>
                   if (fst x =? 0 + k)%nat
                   then acsf_value params (nth k dists 0) (snd x) else v)
                  (range (length dists)) v)).
  { apply for_updates. intros k Hk. apply in_seq in Hk.
    apply acsf_row_updates; [reflexivity | lia]. }
  destruct (H (zeros2 (length dists) (1 + length params)) (zeros2_ok2 _ _))
    as (M & E & Hok & Hent).
  exists M. split; [exact E|]. split; [exact Hok|].
  intros k c Hk Hc. specialize (Hent (k, c) (conj Hk Hc)).
  unfold ent2 in Hent. simpl fst in Hent. simpl snd in Hent.
  rewrite Hent. unfold range.
  rewrite (fold_left_once k 0
             (fun k0 _ => acsf_value params (nth k0 dists 0) c)).
  replace ((0 + 0 <=? k)%nat && (k <? 0 + 0 + length dists)%nat)%bool with true.
  - rewrite Nat.sub_0_r. reflexivity.
  - symmetry. apply andb_true_iff.
    split; [apply Nat.leb_le | apply Nat.ltb_lt]; lia.
Qed.

(** C7.  The fill cell of the dimer notebook returns a matrix with one
    row per configuration ([nConfs = len(dists)] rows) and
    [1 + len(params)] columns, and the [G1] loop of the trimer notebook
    returns a matrix with one row per atom and one column per parameter
    pair. *)
Theorem C7_descriptor_shapes :
  (forall (dists : list R) (params : list (R * R)),
      exists acsf, Dimer.acsf_fill dists params = inr acsf /\
        nrows acsf = length dists /\
        ncols acsf = (1 + length params)%nat /\
        Forall (fun row => length row = (1 + length params)%nat) (rows acsf)) /\
  (forall (atoms : list vec3) (p : list (R * R)),
      exists G1, Trimer.G1 (length atoms) atoms p = inr G1 /\
        nrows G1 = length atoms /\
        ncols G1 = length p /\
        Forall (fun row => length row = length p) (rows G1)).
Proof.
  split.
  - intros dists params.
    destruct (acsf_fill_closed dists params) as (M & E & (Hc & Hr & Hf) & _).
    exists M. auto.
  - intros atoms p.
    destruct (G1_closed (length atoms) atoms p eq_refl) as (M & E & (Hc & Hr & Hf) & _).
    exists M. auto.
Qed.

(** ** Mean and standard deviation *)

(** A column in which all the entries are equal. *)
Definition constant (l : list R) : Prop :=
  forall x y, In x l -> In y l -> x = y.

(** A column after [l -= mean(l)]. *)
Definition centred (l : list R) : list R := map (fun x => x - mean l) l.

Lemma Rsum_zero_all (l : list R) :
  (forall x, In x l -> 0 <= x) -> Rsum l = 0 -> forall x, In x l -> x = 0.
Proof.
  induction l as [|a l IH]; intros Hpos Hsum x Hx; [contradiction|].
  simpl in Hsum.
  assert (Ha : 0 <= a) by (apply Hpos; left; reflexivity).
  assert (Hl : 0 <= Rsum l).
  { rewrite <- (map_id l). apply Rsum_map_nonneg.
    intros b Hb. apply Hpos. right. exact Hb. }
  destruct Hx as [<-|Hx]; [lra|].
  apply IH; [intros b Hb; apply Hpos; right; exact Hb | lra | exact Hx].
Qed.

Lemma INR_length_pos {A : Type} (l : list A) : l <> [] -> 0 < INR (length l).
Proof.
  intros H. destruct l as [|a l]; [contradiction|].
  apply lt_0_INR. simpl. lia.
Qed.

Lemma mean_constant (l : list R) (h : R) :
  l <> [] -> (forall x, In x l -> x = h) -> mean l = h.
Proof.
  intros Hne Hall. unfold mean.
  assert (E : Rsum l = INR (length l) * h).
  { rewrite <- (map_id l) at 1.
    rewrite (Rsum_map_ext (fun x => x) (fun _ => h)) by exact Hall.
    apply Rsum_map_const. }
  rewrite E. field. apply Rgt_not_eq. apply INR_length_pos. exact Hne.
Qed.

Lemma sq_dev_nonneg (m x : R) : 0 <= Rsqr (Rabs (x - m)).
Proof. apply Rle_0_sqr. Qed.

Lemma sq_dev_zero (m x : R) : Rsqr (Rabs (x - m)) = 0 -> x = m.
Proof.
  intros H. apply Rsqr_0_uniq in H.
  destruct (Req_dec (x - m) 0) as [E|E]; [lra|].
  apply Rabs_no_R0 in E. contradiction.
Qed.

(** The standard deviation vanishes exactly on the constant columns. *)
Lemma std_zero_iff (l : list R) : std l = 0 <-> constant l.
Proof.
  destruct l as [|a l0] eqn:El.
  - split; [intros _ x y []|].
    intros _. unfold std, mean. simpl.
    replace (0 / 0) with 0 by (unfold Rdiv; ring). apply sqrt_0.
  - rewrite <- El. assert (Hne : l <> []) by (rewrite El; discriminate).
    pose proof (INR_length_pos l Hne) as Hn.
    unfold std. set (m := mean l).
    set (S := Rsum (map (fun x => Rsqr (Rabs (x - m))) l)).
    assert (HS : 0 <= S).
    { apply Rsum_map_nonneg. intros x _. apply sq_dev_nonneg. }
    assert (Hmean : mean (map (fun x => Rsqr (Rabs (x - m))) l)
                    = S / INR (length l)).
    { unfold mean. rewrite length_map. reflexivity. }
    rewrite Hmean. split.
    + intros H. apply sqrt_eq_0 in H.
      * assert (ES : S = 0).
        { apply (Rmult_eq_reg_r (/ INR (length l)));
            [|apply Rinv_neq_0_compat; lra].
          unfold Rdiv in H. rewrite H. ring. }
        assert (Hall : forall x, In x l -> x = m).
        { intros x Hx. apply sq_dev_zero.
          apply (Rsum_zero_all (map (fun x => Rsqr (Rabs (x - m))) l)).
          - intros y Hy. apply in_map_iff in Hy. destruct Hy as (z & <- & _).
            apply sq_dev_nonneg.
          - exact ES.
          - apply in_map_iff. exists x. split; [reflexivity | exact Hx]. }
        intros x y Hx Hy. rewrite (Hall x Hx), (Hall y Hy). reflexivity.
      * apply Rmult_le_pos; [exact HS | left; apply Rinv_0_lt_compat; exact Hn].
    + intros Hc.
      assert (Ha : In a l) by (rewrite El; left; reflexivity).
      assert (Hm : m = a).
      { apply mean_constant; [exact Hne|]. intros x Hx. apply Hc; assumption. }
      assert (ES : S = 0).
      { apply Rsum_map_zero. intros x Hx. rewrite Hm, (Hc x a Hx Ha).
        replace (a - a) with 0 by ring. rewrite Rabs_R0. apply Rsqr_0. }
      rewrite ES. replace (0 / INR (length l)) with 0 by (unfold Rdiv; ring).
      apply sqrt_0.
Qed.

Lemma centred_constant (l : list R) : constant (centred l) <-> constant l.
Proof.
  unfold constant, centred. split.
  - intros H x y Hx Hy.
    assert (x - mean l = y - mean l); [|lra].
    apply H; apply in_map_iff; [exists x | exists y]; auto.
  - intros H x' y' Hx Hy.
    apply in_map_iff in Hx, Hy.
    destruct Hx as (x & <- & Hx), Hy as (y & <- & Hy).
    rewrite (H x y Hx Hy). reflexivity.
Qed.

(** A column that has been centred on its mean and rescaled sums to 0. *)
Lemma Rsum_standardized (l : list R) (s : R) :
  Rsum (map (fun x => (x - mean l) / s) l) = 0.
Proof.
  rewrite (Rsum_map_ext _ (fun x => (x + - mean l) * / s))
    by (intros; unfold Rdiv; ring).
  rewrite Rsum_map_scal, Rsum_map_plus, Rsum_map_const, map_id.
  destruct l as [|a l0] eqn:El.
  - simpl. ring.
  - rewrite <- El. unfold mean.
    assert (0 < INR (length l)) by (apply INR_length_pos; rewrite El; discriminate).
    assert (E : Rsum l + INR (length l) * - (Rsum l / INR (length l)) = 0)
      by (field; lra).
    rewrite E. ring.
Qed.

(** ** Columns of a two-dimensional array *)

Lemma column_length (M : ndarray) (a : nat) : length (column M a) = nrows M.
Proof. unfold column, nrows. apply length_map. Qed.

Lemma column_nth (M : ndarray) (a i : nat) :
  (i < nrows M)%nat -> nth i (column M a) 0 = entry M i a.
Proof.
  intros Hi. unfold column, entry, nrows in *.
  rewrite (nth_indep _ 0 (nth a [] 0)) by (rewrite length_map; exact Hi).
  apply (map_nth (fun row => nth a row 0)).
Qed.

Lemma column_ext (M M' : ndarray) (a : nat) (f : R -> R) :
  nrows M' = nrows M ->
  (forall i, (i < nrows M)%nat -> entry M' i a = f (entry M i a)) ->
  column M' a = map f (column M a).
Proof.
  intros Hr Hent. apply (nth_ext _ _ 0 (f 0)).
  - rewrite length_map, !column_length. exact Hr.
  - intros i Hi. rewrite column_length in Hi.
    rewrite (map_nth f). rewrite !column_nth by lia. apply Hent. lia.
Qed.

Lemma mean_axis0_length (M : ndarray) : length (mean_axis0 M) = ncols M.
Proof. unfold mean_axis0, range. rewrite length_map. apply length_seq. Qed.

Lemma std_axis0_length (M : ndarray) : length (std_axis0 M) = ncols M.
Proof. unfold std_axis0, range. rewrite length_map. apply length_seq. Qed.

Lemma nth_map_range (f : nat -> R) (n a : nat) :
  (a < n)%nat -> nth a (map f (range n)) 0 = f a.
Proof.
  intros Ha. unfold range.
  rewrite (nth_indep _ 0 (f 0%nat)) by (rewrite length_map, length_seq; exact Ha).
  rewrite (map_nth f). rewrite seq_nth by exact Ha. reflexivity.
Qed.

Lemma mean_axis0_nth (M : ndarray) (a : nat) :
  (a < ncols M)%nat -> nth a (mean_axis0 M) 0 = mean (column M a).
Proof. apply (nth_map_range (fun a => mean (column M a))). Qed.

Lemma std_axis0_nth (M : ndarray) (a : nat) :
  (a < ncols M)%nat -> nth a (std_axis0 M) 0 = std (column M a).
Proof. apply (nth_map_range (fun a => std (column M a))). Qed.

(** ** The centring and the scaling loops *)

Lemma center_loop (r c : nat) (means : list R) :
  length means = c ->
  updates (ok2 r c) ent2 (dom2 r c)
    (for_ (range c) (fun a M => m <- getitem means a ;; col_isub M a m))
    (fun x v => v - nth (snd x) means 0).
Proof.
  intros Hlen.
  eapply updates_ext;
    [|apply (for_updates _ _ _ _ _
               (fun a x v => if (snd x =? 0 + a)%nat
                             then v - nth a means 0 else v));
      intros a Ha; apply in_seq in Ha; intros M HM;
      rewrite (getitem_nth means a 0) by lia; simpl bind;
      apply (col_isub_updates r c a); [lia | exact HM]].
  intros [i k] v [_ Hk]. simpl in *. unfold range.
  rewrite (fold_left_once k 0 (fun a v => v - nth a means 0)).
  replace ((0 + 0 <=? k)%nat && (k <? 0 + 0 + c)%nat)%bool with true.
  - rewrite Nat.sub_0_r. reflexivity.
  - symmetry. apply andb_true_iff.
    split; [apply Nat.leb_le | apply Nat.ltb_lt]; lia.
Qed.

Lemma scale_loop (r c : nat) (stds : list R) :
  length stds = c -> Forall (fun s => s <> 0) stds ->
  updates (ok2 r c) ent2 (dom2 r c)
    (for_ (range c) (fun a M => s <- getitem stds a ;; col_idiv M a s))
    (fun x v => v / nth (snd x) stds 0).
Proof.
  intros Hlen Hnz.
  eapply updates_ext;
    [|apply (for_updates _ _ _ _ _
               (fun a x v => if (snd x =? 0 + a)%nat
                             then v / nth a stds 0 else v));
      intros a Ha; apply in_seq in Ha; intros M HM;
      rewrite (getitem_nth stds a 0) by lia; simpl bind;
      apply (col_idiv_updates r c a);
      [lia | rewrite Forall_forall in Hnz; apply Hnz; apply nth_In; lia | exact HM]].
  intros [i k] v [_ Hk]. simpl in *. unfold range.
  rewrite (fold_left_once k 0 (fun a v => v / nth a stds 0)).
  replace ((0 + 0 <=? k)%nat && (k <? 0 + 0 + c)%nat)%bool with true.
  - rewrite Nat.sub_0_r. reflexivity.
  - symmetry. apply andb_true_iff.
    split; [apply Nat.leb_le | apply Nat.ltb_lt]; lia.
Qed.

(** Every iteration of a loop that ended without an exception ended
    without an exception. *)
Lemma for_inr_each {A S : Type} (l : list A) (body : A -> S -> result S)
      (s s' : S) :
  for_ l body s = inr s' ->
  forall a, In a l -> exists s1 s2, body a s1 = inr s2.
Proof.
  revert s. induction l as [|b l IH]; intros s H a Ha; [contradiction|].
  simpl in H. destruct (body b s) as [e|s1] eqn:E; [discriminate|].
  simpl in H. destruct Ha as [<-|Ha].
  - exists s, s1. exact E.
  - apply (IH s1 H a Ha).
Qed.

Lemma col_idiv_inr (M M' : ndarray) (a : nat) (s : R) :
  col_idiv M a s = inr M' -> s <> 0.
Proof.
  unfold col_idiv. destruct (a <? ncols M)%nat; [|discriminate].
  destruct (Req_dec_T s 0); [discriminate | auto].
Qed.

(** ** The standardisation cell of the dimer notebook *)

(** The entry the cell leaves at [acsf[i,k]]. *)
Definition standardized (M : ndarray) (i k : nat) : R :=
  (entry M i k - mean (column M k)) / std (centred (column M k)).

Lemma centring_column (r c : nat) (M M1 : ndarray) (a : nat) :
  ok2 r c M -> ok2 r c M1 -> (a < c)%nat ->
  (forall x, dom2 r c x -> ent2 M1 x = ent2 M x - nth (snd x) (mean_axis0 M) 0) ->
  column M1 a = centred (column M a).
Proof.
  intros HM HM1 Ha Hent.
  assert (Hc : ncols M = c) by apply HM.
  assert (Hr : nrows M = r) by apply HM.
  assert (Hr1 : nrows M1 = r) by apply HM1.
  unfold centred. apply column_ext; [lia|].
  intros i Hi. specialize (Hent (i, a)). unfold ent2, dom2 in Hent. simpl in Hent.
  rewrite Hent by lia. rewrite mean_axis0_nth by lia. reflexivity.
Qed.

Lemma standardize_closed (r c : nat) (M : ndarray) :
  ok2 r c M ->
  (forall a, (a < c)%nat -> ~ constant (column M a)) ->
  exists M', Dimer.standardize M = inr M' /\ ok2 r c M' /\
    forall i k, (i < r)%nat -> (k < c)%nat -> entry M' i k = standardized M i k.
Proof.
  intros HM Hnc.
  assert (Hc : ncols M = c) by apply HM.
  unfold Dimer.standardize. rewrite Hc.
  destruct (center_loop r c (mean_axis0 M)
              (eq_trans (mean_axis0_length M) Hc) M HM) as (M1 & E1 & HM1 & Hent1).
  rewrite E1. simpl bind.
  assert (Hc1 : ncols M1 = c) by apply HM1. rewrite Hc1.
  assert (Hcol : forall a, (a < c)%nat -> column M1 a = centred (column M a)).
  { intros a Ha. apply (centring_column r c); assumption. }
  assert (Hnz : Forall (fun s => s <> 0) (std_axis0 M1)).
  { apply Forall_forall. intros s Hs.
    destruct (In_nth _ _ 0 Hs) as (a & Ha & <-).
    rewrite std_axis0_length, Hc1 in Ha.
    rewrite std_axis0_nth by lia. rewrite Hcol by exact Ha.
    intros H0. apply (proj1 (std_zero_iff _)) in H0.
    apply (proj1 (centred_constant _)) in H0.
    exact (Hnc a Ha H0). }
  destruct (scale_loop r c (std_axis0 M1)
              (eq_trans (std_axis0_length M1) Hc1) Hnz M1 HM1)
    as (M2 & E2 & HM2 & Hent2).
  exists M2. split; [exact E2|]. split; [exact HM2|].
  intros i k Hi Hk.
  specialize (Hent2 (i, k) (conj Hi Hk)). specialize (Hent1 (i, k) (conj Hi Hk)).
  unfold ent2 in Hent1, Hent2. simpl in Hent1, Hent2.
  rewrite Hent2, Hent1. unfold standardized.
  rewrite mean_axis0_nth, std_axis0_nth by lia.
  rewrite Hcol by exact Hk. reflexivity.
Qed.

Lemma standardize_inr (r c : nat) (M M' : ndarray) :
  ok2 r c M -> Dimer.standardize M = inr M' ->
  forall a, (a < c)%nat -> ~ constant (column M a).
Proof.
  intros HM E a Ha Hconst.
  assert (Hc : ncols M = c) by apply HM.
  unfold Dimer.standardize in E. rewrite Hc in E.
  destruct (center_loop r c (mean_axis0 M)
              (eq_trans (mean_axis0_length M) Hc) M HM) as (M1 & E1 & HM1 & Hent1).
  rewrite E1 in E. simpl bind in E.
  assert (Hc1 : ncols M1 = c) by apply HM1. rewrite Hc1 in E.
  destruct (for_inr_each _ _ _ _ E a) as (s1 & s2 & Ebody).
  { apply in_seq. lia. }
  rewrite (getitem_nth (std_axis0 M1) a 0) in Ebody
    by (rewrite std_axis0_length; lia).
  simpl bind in Ebody. apply col_idiv_inr in Ebody. apply Ebody.
  rewrite std_axis0_nth by lia.
  rewrite (centring_column r c M M1 a HM HM1 Ha Hent1).
  apply (proj2 (std_zero_iff _)). apply (proj2 (centred_constant _)).
  exact Hconst.
Qed.

(** ** The configurations of the dimer notebook *)

Lemma dists_count : Dimer.ceil ((Rcut - 1.95) / (Rcut / 30)) = 19%Z.
Proof.
  rewrite Rcut_val.
  replace ((5 - 1.95) / (5 / 30)) with 18.3 by lra.
  unfold Dimer.ceil, Int_part.
  rewrite <- (tech_up (- (18.3)) (-18)%Z); [reflexivity | lra | lra].
Qed.

Lemma dists_unfold :
  Dimer.dists = map (fun i => 1.95 + INR i * (Rcut / 30)) (range 19).
Proof. unfold Dimer.dists, Dimer.arange. rewrite dists_count. reflexivity. Qed.

Lemma dists_length : length Dimer.dists = 19%nat.
Proof. rewrite dists_unfold. reflexivity. Qed.

Lemma dists_nth (k : nat) :
  (k < 19)%nat -> nth k Dimer.dists 0 = 1.95 + INR k * (Rcut / 30).
Proof.
  intros Hk. rewrite dists_unfold.
  apply (nth_map_range (fun i => 1.95 + INR i * (Rcut / 30))). exact Hk.
Qed.

Lemma dists_inside (k : nat) :
  (k < 19)%nat -> 1.95 <= nth k Dimer.dists 0 < Rcut.
Proof.
  intros Hk. rewrite dists_nth by exact Hk. rewrite Rcut_val.
  assert (H0 : 0 <= INR k) by apply pos_INR.
  assert (H1 : INR k <= 18).
  { replace 18 with (INR 18) by (simpl; lra). apply le_INR. lia. }
  lra.
Qed.

Lemma Dimer_G1f_decreasing (r1 r2 eta Rs : R) :
  0 < eta -> 0 <= Rs -> Rs <= r1 -> r1 < r2 -> r2 < Rcut ->
  Dimer.G1f r2 eta Rs < Dimer.G1f r1 eta Rs.
Proof.
  intros Heta HRs H1 H12 H2. unfold Dimer.G1f.
  rewrite !fcut_agree by lra.
  assert (Hf : Trimer.fcut r2 < Trimer.fcut r1)
    by (apply Trimer_fcut_decreasing; lra).
  assert (Hf2 : 0 < Trimer.fcut r2) by (apply Trimer_fcut_pos; lra).
  assert (He : exp (- eta * (r2 - Rs) * (r2 - Rs)) < exp (- eta * (r1 - Rs) * (r1 - Rs))).
  { apply exp_increasing.
    assert (Hsq : (r1 - Rs) * (r1 - Rs) < (r2 - Rs) * (r2 - Rs)) by nra.
    pose proof (Rmult_lt_compat_l eta _ _ Heta Hsq). lra. }
  assert (He2 : 0 < exp (- eta * (r2 - Rs) * (r2 - Rs))) by apply exp_pos.
  apply Rmult_gt_0_lt_compat; lra.
Qed.

(** The first two rows of the filled [acsf] differ in every column. *)
Lemma acsf_rows_differ (c : nat) :
  (c < 3)%nat ->
  acsf_value Dimer.params (nth 1 Dimer.dists 0) c <>
  acsf_value Dimer.params (nth 0 Dimer.dists 0) c.
Proof.
  intros Hc.
  assert (H0 : 1.95 <= nth 0 Dimer.dists 0 < Rcut) by (apply dists_inside; lia).
  assert (H1 : 1.95 <= nth 1 Dimer.dists 0 < Rcut) by (apply dists_inside; lia).
  assert (H01 : nth 0 Dimer.dists 0 < nth 1 Dimer.dists 0).
  { rewrite !dists_nth by lia. rewrite Rcut_val. simpl. lra. }
  apply Rlt_not_eq.
  destruct c as [|[|[|c]]]; simpl; try lia.
  - rewrite !fcut_agree by lra. apply Trimer_fcut_decreasing; lra.
  - apply Dimer_G1f_decreasing; lra.
  - apply Dimer_G1f_decreasing; lra.
Qed.

Lemma nonconstant_by_rows (M : ndarray) (a : nat) :
  (1 < nrows M)%nat -> entry M 1 a <> entry M 0 a -> ~ constant (column M a).
Proof.
  intros Hr Hne Hc. apply Hne.
  rewrite <- !column_nth by lia.
  apply Hc; apply nth_In; rewrite column_length; lia.
Qed.

Lemma Rsum_pos (l : list R) :
  l <> [] -> (forall x, In x l -> 0 < x) -> 0 < Rsum l.
Proof.
  intros Hne Hpos. destruct l as [|a l]; [contradiction|]. simpl.
  assert (0 < a) by (apply Hpos; left; reflexivity).
  assert (0 <= Rsum l).
  { rewrite <- (map_id l). apply Rsum_map_nonneg. intros x Hx.
    left. apply Hpos. right. exact Hx. }
  lra.
Qed.

(** What the two cells leave in [acsf] for the data of the notebook. *)
Lemma notebook_acsf :
  exists M M',
    Dimer.acsf_fill Dimer.dists Dimer.params = inr M /\
    ok2 19 3 M /\
    (forall k c, (k < 19)%nat -> (c < 3)%nat ->
       entry M k c = acsf_value Dimer.params (nth k Dimer.dists 0) c) /\
    (forall a, (a < 3)%nat -> ~ constant (column M a)) /\
    Dimer.standardize M = inr M' /\
    ok2 19 3 M' /\
    (forall k c, (k < 19)%nat -> (c < 3)%nat ->
       entry M' k c = standardized M k c).
Proof.
  destruct (acsf_fill_closed Dimer.dists Dimer.params) as (M & E & HM & Hent).
  rewrite dists_length in HM, Hent.
  change (1 + length Dimer.params)%nat with 3%nat in HM, Hent.
  assert (Hnc : forall a, (a < 3)%nat -> ~ constant (column M a)).
  { intros a Ha. apply nonconstant_by_rows.
    - destruct HM as (_ & Hr & _). lia.
    - rewrite !Hent by lia. apply acsf_rows_differ. exact Ha. }
  destruct (standardize_closed 19 3 M HM Hnc) as (M' & E' & HM' & Hent').
  exists M, M'. repeat (split; [assumption|]). exact Hent'.
Qed.

(** C3 (counterexample).  For the configurations and the parameters of
    the dimer notebook the standardisation cell, which runs after the fill
    loop, ends without an exception and leaves an [acsf] whose first
    column differs from the one the fill loop computed: some entry
    [acsf[k,0]] has been changed. *)
Lemma C3_acsf_overwritten :
  exists acsf acsf',
    Dimer.acsf_fill Dimer.dists Dimer.params = inr acsf /\
    Dimer.standardize acsf = inr acsf' /\
    column acsf' 0 <> column acsf 0 /\
    exists k, (k < 19)%nat /\ entry acsf' k 0 <> entry acsf k 0.
Proof.
  destruct notebook_acsf as (M & M' & E & HM & Hent & _ & E' & HM' & Hent').
  exists M, M'. split; [exact E|]. split; [exact E'|].
  assert (Hr : nrows M = 19%nat) by apply HM.
  assert (Hr' : nrows M' = 19%nat) by apply HM'.
  assert (Hcol' : column M' 0 =
                  map (fun x => (x - mean (column M 0)) / std (centred (column M 0)))
                      (column M 0)).
  { apply column_ext; [lia|]. intros i Hi.
    rewrite Hent' by lia. reflexivity. }
  assert (Hsum' : Rsum (column M' 0) = 0).
  { rewrite Hcol'. apply Rsum_standardized. }
  assert (Hsum : 0 < Rsum (column M 0)).
  { apply Rsum_pos.
    - intros H0. apply (f_equal (@length R)) in H0.
      rewrite column_length in H0. simpl in H0. lia.
    - intros x Hx. destruct (In_nth _ _ 0 Hx) as (k & Hk & <-).
      rewrite column_length in Hk. rewrite column_nth by exact Hk.
      rewrite Hent by lia. simpl.
      assert (Hd : 1.95 <= nth k Dimer.dists 0 < Rcut) by (apply dists_inside; lia).
      rewrite fcut_agree by lra. apply Trimer_fcut_pos. lra. }
  assert (Hne : column M' 0 <> column M 0).
  { intros Heq. rewrite Heq in Hsum'. lra. }
  split; [exact Hne|].
  destruct (Classical_Prop.classic
              (exists k, (k < 19)%nat /\ entry M' k 0 <> entry M k 0))
    as [H|H]; [exact H|].
  exfalso. apply Hne. rewrite <- (map_id (column M 0)).
  apply column_ext; [lia|]. intros i Hi.
  destruct (Req_dec (entry M' i 0) (entry M i 0)) as [Heq|Hneq]; [exact Heq|].
  exfalso. apply H. exists i. split; [lia | exact Hneq].
Qed.

(** C3 (amended).  The fill loop returns the matrix whose row [k] holds
    [fcut(dists[k])] and the values [G1f(dists[k], eta, Rs)] of the
    parameter list, so it is computed from the configurations and the
    parameters alone.  The standardisation cell that follows overwrites
    it in place: when no column is constant the cell ends without an
    exception, keeps the shape and leaves
    [(acsf[k,a] - mean_a) / std_a] at every entry [acsf[k,a]]. *)
Theorem C3_acsf_filled_then_standardized
        (dists : list R) (params : list (R * R)) :
  exists acsf,
    Dimer.acsf_fill dists params = inr acsf /\
    (forall k c, (k < length dists)%nat -> (c < 1 + length params)%nat ->
       entry acsf k c = acsf_value params (nth k dists 0) c) /\
    ((forall a, (a < 1 + length params)%nat -> ~ constant (column acsf a)) ->
     exists acsf',
       Dimer.standardize acsf = inr acsf' /\
       nrows acsf' = nrows acsf /\ ncols acsf' = ncols acsf /\
       forall k a, (k < length dists)%nat -> (a < 1 + length params)%nat ->
         entry acsf' k a =
         (entry acsf k a - mean (column acsf a)) / std (centred (column acsf a))).
Proof.
  destruct (acsf_fill_closed dists params) as (M & E & HM & Hent).
  exists M. split; [exact E|]. split; [exact Hent|].
  intros Hnc.
  destruct (standardize_closed _ _ M HM Hnc) as (M' & E' & HM' & Hent').
  exists M'. split; [exact E'|].
  destruct HM as (Hc & Hr & _), HM' as (Hc' & Hr' & _).
  split; [lia|]. split; [lia|]. exact Hent'.
Qed.

Lemma C3_acsf_filled_then_standardized_witness :
  exists acsf acsf',
    Dimer.acsf_fill Dimer.dists Dimer.params = inr acsf /\
    (forall a, (a < 1 + length Dimer.params)%nat -> ~ constant (column acsf a)) /\
    Dimer.standardize acsf = inr acsf' /\
    entry acsf' 0 0 =
    (entry acsf 0 0 - mean (column acsf 0)) / std (centred (column acsf 0)).
Proof.
  destruct (C3_acsf_filled_then_standardized Dimer.dists Dimer.params)
    as (M & E & Hent & Hstd).
  assert (Hr : (1 < nrows M)%nat).
  { destruct (acsf_fill_closed Dimer.dists Dimer.params) as (M0 & E0 & HM0 & _).
    rewrite E in E0. inversion E0. subst M0.
    destruct HM0 as (_ & Hr & _). rewrite Hr, dists_length. lia. }
  assert (Hnc : forall a, (a < 1 + length Dimer.params)%nat ->
                          ~ constant (column M a)).
  { intros a Ha. apply nonconstant_by_rows; [exact Hr|].
    rewrite !Hent by (rewrite ?dists_length; simpl; simpl in Ha; lia).
    apply acsf_rows_differ. exact Ha. }
  destruct (Hstd Hnc) as (M' & E' & _ & _ & Hent').
  exists M, M'. split; [exact E|]. split; [exact Hnc|]. split; [exact E'|].
  apply Hent'; [rewrite dists_length; lia | simpl; lia].
Defined.

(** ** Feature scaling in the energy-prediction notebook *)

Lemma guard_std_length (l : list R) : length (Energy.guard_std l) = length l.
Proof. apply length_map. Qed.

Lemma guard_std_nonzero (l : list R) :
  Forall (fun s => s <> 0) (Energy.guard_std l).
Proof.
  apply Forall_forall. intros s Hs. unfold Energy.guard_std in Hs.
  apply in_map_iff in Hs. destruct Hs as (s0 & <- & _).
  destruct (Req_dec_T s0 0); [lra | assumption].
Qed.

Lemma guard_std_nth (l : list R) (a : nat) :
  (a < length l)%nat ->
  nth a (Energy.guard_std l) 0 =
  if Req_dec_T (nth a l 0) 0 then 1 else nth a l 0.
Proof.
  intros Ha. unfold Energy.guard_std.
  rewrite (nth_indep _ 0 (if Req_dec_T 0 0 then 1 else 0))
    by (rewrite length_map; exact Ha).
  apply (map_nth (fun s => if Req_dec_T s 0 then 1 else s)).
Qed.

Lemma scale_closed (r r' c : nat) (trainIn validIn : ndarray) :
  ok2 r c trainIn -> ok2 r' c validIn ->
  exists t v,
    Energy.scale trainIn validIn = inr (t, v) /\
    ok2 r c t /\ ok2 r' c v /\
    (forall i k, (i < r)%nat -> (k < c)%nat ->
       entry t i k = (entry trainIn i k - nth k (mean_axis0 trainIn) 0)
                     / nth k (Energy.guard_std (std_axis0 trainIn)) 0) /\
    (forall i k, (i < r')%nat -> (k < c)%nat ->
       entry v i k = (entry validIn i k - nth k (mean_axis0 trainIn) 0)
                     / nth k (Energy.guard_std (std_axis0 trainIn)) 0).
Proof.
  intros HT HV.
  assert (HcT : ncols trainIn = c) by apply HT.
  assert (HcV : ncols validIn = c) by apply HV.
  assert (Hml : length (mean_axis0 trainIn) = c)
    by (rewrite mean_axis0_length; exact HcT).
  assert (Hsl : length (Energy.guard_std (std_axis0 trainIn)) = c)
    by (rewrite guard_std_length, std_axis0_length; exact HcT).
  pose proof (guard_std_nonzero (std_axis0 trainIn)) as Hnz.
  unfold Energy.scale. rewrite HcT, HcV.
  destruct (center_loop r c _ Hml trainIn HT) as (T1 & E1 & HT1 & Hent1).
  rewrite E1. simpl bind.
  assert (HcT1 : ncols T1 = c) by apply HT1. rewrite HcT1.
  destruct (scale_loop r c _ Hsl Hnz T1 HT1) as (T2 & E2 & HT2 & Hent2).
  rewrite E2. simpl bind.
  destruct (center_loop r' c _ Hml validIn HV) as (V1 & E3 & HV1 & Hent3).
  rewrite E3. simpl bind.
  assert (HcV1 : ncols V1 = c) by apply HV1. rewrite HcV1.
  destruct (scale_loop r' c _ Hsl Hnz V1 HV1) as (V2 & E4 & HV2 & Hent4).
  rewrite E4. simpl bind.
  exists T2, V2. split; [reflexivity|]. split; [exact HT2|]. split; [exact HV2|].
  split.
  - intros i k Hi Hk.
    specialize (Hent2 (i, k) (conj Hi Hk)). specialize (Hent1 (i, k) (conj Hi Hk)).
    unfold ent2 in *. simpl in *. rewrite Hent2, Hent1. reflexivity.
  - intros i k Hi Hk.
    specialize (Hent4 (i, k) (conj Hi Hk)). specialize (Hent3 (i, k) (conj Hi Hk)).
    unfold ent2 in *. simpl in *. rewrite Hent4, Hent3. reflexivity.
Qed.

(** C9.  In the energy-prediction notebook every zero of the training
    standard deviations is replaced by 1, so no divisor of the scaling is
    zero and the scaling of the training and the validation matrix ends
    without a division by zero for every pair of matrices with the same
    number of columns, constant columns included.  The standardisation
    cell of the dimer notebook divides by the standard deviations as they
    are: it ends without a division by zero exactly when no column of
    [acsf] is constant. *)
Theorem C9_scaling_defined :
  (forall (r r' c : nat) (trainIn validIn : ndarray),
      ok2 r c trainIn -> ok2 r' c validIn ->
      (forall a, (a < c)%nat ->
         nth a (Energy.guard_std (std_axis0 trainIn)) 0 =
         if Req_dec_T (std (column trainIn a)) 0 then 1
         else std (column trainIn a)) /\
      Forall (fun s => s <> 0) (Energy.guard_std (std_axis0 trainIn)) /\
      exists t v, Energy.scale trainIn validIn = inr (t, v) /\
                  ok2 r c t /\ ok2 r' c v) /\
  (forall (r c : nat) (acsf : ndarray),
      ok2 r c acsf ->
      ((exists acsf', Dimer.standardize acsf = inr acsf') <->
       (forall a, (a < c)%nat -> ~ constant (column acsf a)))).
Proof.
  split.
  - intros r r' c trainIn validIn HT HV.
    assert (Hc : ncols trainIn = c) by apply HT.
    split.
    { intros a Ha. rewrite guard_std_nth by (rewrite std_axis0_length; lia).
      rewrite std_axis0_nth by lia. reflexivity. }
    split; [apply guard_std_nonzero|].
    destruct (scale_closed r r' c trainIn validIn HT HV)
      as (t & v & E & Ht & Hv & _).
    exists t, v. auto.
  - intros r c acsf HM. split.
    + intros (M' & E). apply (standardize_inr r c acsf M' HM E).
    + intros Hnc.
      destruct (standardize_closed r c acsf HM Hnc) as (M' & E & _).
      exists M'. exact E.
Qed.

(** A training matrix whose first column is constant, and one validation
    row. *)
Definition train_example : ndarray :=
  {| ncols := 2; rows := [[1; 2]; [1; 3]] |}.

Definition valid_example : ndarray :=
  {| ncols := 2; rows := [[5; 6]] |}.

Lemma C9_scaling_defined_witness :
  ok2 2 2 train_example /\ ok2 1 2 valid_example /\
  constant (column train_example 0) /\
  (exists t v, Energy.scale train_example valid_example = inr (t, v) /\
               ok2 2 2 t /\ ok2 1 2 v) /\
  ~ (exists acsf', Dimer.standardize train_example = inr acsf').
Proof.
  assert (HT : ok2 2 2 train_example).
  { unfold ok2, nrows, train_example. simpl. repeat split. repeat constructor. }
  assert (HV : ok2 1 2 valid_example).
  { unfold ok2, nrows, valid_example. simpl. repeat split. repeat constructor. }
  assert (Hconst : constant (column train_example 0)).
  { intros x y Hx Hy. simpl in Hx, Hy.
    destruct Hx as [<-|[<-|[]]], Hy as [<-|[<-|[]]]; reflexivity. }
  split; [exact HT|]. split; [exact HV|]. split; [exact Hconst|]. split.
  - exact (proj2 (proj2 (proj1 C9_scaling_defined 2%nat 1%nat 2%nat
                               train_example valid_example HT HV))).
  - intros H.
    apply (proj1 (proj2 C9_scaling_defined 2%nat 2%nat train_example HT) H 0%nat).
    + lia.
    + exact Hconst.
Defined.

(** ** The train/validation split of the energy-prediction notebook *)

Lemma samples_bounds (n : Z) :
  (0 <= n)%Z ->
  (0 <= Energy.samples n <= n)%Z /\ (0 <= Energy.vsamples n)%Z /\
  (Energy.samples n + Energy.vsamples n <= n)%Z.
Proof. intros Hn. unfold Energy.vsamples, Energy.samples. lia. Qed.

Lemma clamp_inside (i len : Z) : (0 <= i <= len)%Z -> Energy.clamp i len = i.
Proof.
  intros H. unfold Energy.clamp.
  replace (i <? 0)%Z with false by (symmetry; apply Z.ltb_ge; lia). lia.
Qed.

Lemma slice_inside {A : Type} (a : list A) (lo hi : Z) :
  (0 <= lo <= hi)%Z -> (hi <= Z.of_nat (length a))%Z ->
  Energy.slice a lo hi = firstn (Z.to_nat (hi - lo)) (skipn (Z.to_nat lo) a).
Proof.
  intros H1 H2. unfold Energy.slice. rewrite !clamp_inside by lia. reflexivity.
Qed.

(** C10.  With [samples = min(rows, 9000)] and
    [vsamples = min(rows - samples, 1000)] both counts are non-negative
    and [samples + vsamples] does not exceed the number of loaded rows;
    the training slice holds exactly the rows [0 .. samples) and the
    validation slice exactly the rows [samples .. samples + vsamples) of
    the loaded array, so the two slices lie within the array and share
    no row. *)
Theorem C10_split_disjoint_in_bounds {A : Type} (data : list A) :
  let n := Z.of_nat (length data) in
  let s := Energy.samples n in
  let v := Energy.vsamples n in
  let train := fst (Energy.split data) in
  let valid := snd (Energy.split data) in
  (0 <= s <= n)%Z /\ (0 <= v)%Z /\ (s + v <= n)%Z /\
  length train = Z.to_nat s /\ length valid = Z.to_nat v /\
  data = train ++ valid ++ skipn (Z.to_nat (s + v)) data /\
  (forall i, (i < Z.to_nat s)%nat -> nth_error train i = nth_error data i) /\
  (forall i, (i < Z.to_nat v)%nat ->
             nth_error valid i = nth_error data (Z.to_nat s + i)).
Proof.
  intros n s v train valid.
  destruct (samples_bounds n (Nat2Z.is_nonneg _)) as (Hs & Hv & Hsv).
  fold s v in Hs, Hv, Hsv.
  assert (Etrain : train = firstn (Z.to_nat s) data).
  { unfold train, Energy.split. simpl. fold n s.
    rewrite slice_inside by (fold n; lia).
    rewrite Z.sub_0_r. reflexivity. }
  assert (Evalid : valid = firstn (Z.to_nat v) (skipn (Z.to_nat s) data)).
  { unfold valid, Energy.split. simpl. fold n s v.
    rewrite slice_inside by (fold n; lia).
    replace (s + v - s)%Z with v by lia. reflexivity. }
  assert (Hlen : length data = Z.to_nat n) by (unfold n; lia).
  repeat split; try lia.
  - rewrite Etrain, length_firstn. lia.
  - rewrite Evalid, length_firstn, length_skipn. lia.
  - rewrite Etrain, Evalid.
    replace (Z.to_nat (s + v)) with (Z.to_nat v + Z.to_nat s)%nat by lia.
    rewrite <- skipn_skipn. rewrite !firstn_skipn. reflexivity.
  - intros i Hi. rewrite Etrain, nth_error_firstn.
    replace (i <? Z.to_nat s)%nat with true by (symmetry; apply Nat.ltb_lt; exact Hi).
    reflexivity.
  - intros i Hi. rewrite Evalid, nth_error_firstn.
    replace (i <? Z.to_nat v)%nat with true by (symmetry; apply Nat.ltb_lt; exact Hi).
    apply nth_error_skipn.
Qed.

(** ** The evaluators as Python runs them

    [Rcut] is a global name: a call of [fcut], [G1f] or [G4f] reads it
    from the namespace of the notebook when it runs.  A computation
    takes the namespace and returns it next to its result. *)

Module Globals.

(** The names the cells of the trimer notebook assign. *)
Record namespace : Type := mk_namespace {
  g_Rcut : R;
  g_atoms : list vec3;
  g_G0 : list R;
  g_G1 : ndarray;
  g_G4 : ndarray
}.

Definition M (A : Type) : Type := namespace -> result A * namespace.

Definition mret {A : Type} (a : A) : M A := fun g => (inr a, g).

Definition mbind {A B : Type} (m : M A) (f : A -> M B) : M B :=
  fun g => match m g with
           | (inl e, g') => (inl e, g')
           | (inr a, g') => f a g'
           end.

Definition lift {A : Type} (r : result A) : M A := fun g => (r, g).

Definition load_Rcut : M R := fun g => (inr (g_Rcut g), g).

Definition fcut (r : R) : M R :=
  mbind load_Rcut (fun Rcut =>
  mret ((cos (PI * r / Rcut) + 1) * 0.5)).

Definition G1f (x eta Rs : R) : M R :=
  mbind load_Rcut (fun Rcut =>
  mret (exp (- eta * (x - Rs) * (x - Rs)) * ((cos (PI * x / Rcut) + 1) * 0.5))).

Definition G4f (cost rij rik rjk eta : R) (zeta lamb : Z) : M R :=
  mbind (lift (math_pow 2 (1 - zeta))) (fun a =>
  mbind (lift (math_pow (1 + IZR lamb * cost) zeta)) (fun b =>
  let result := a * b in
  let result := result * exp (- eta * (rij * rij + rik * rik + rjk * rjk)) in
  mbind (fcut rij) (fun f1 =>
  mbind (fcut rjk) (fun f2 =>
  mbind (fcut rik) (fun f3 =>
  mret (result * f1 * f2 * f3)))))).

End Globals.

(** The values of the evaluators for a given content [Rc] of [Rcut]. *)
Definition fcut_at (Rc r : R) : R := (cos (PI * r / Rc) + 1) * 0.5.

Definition G1f_at (Rc x eta Rs : R) : R :=
  exp (- eta * (x - Rs) * (x - Rs)) * fcut_at Rc x.

Definition G4f_at (Rc cost rij rik rjk eta : R) (zeta lamb : Z) : result R :=
  a <- math_pow 2 (1 - zeta) ;;
  b <- math_pow (1 + IZR lamb * cost) zeta ;;
  ret (a * b * exp (- eta * (rij * rij + rik * rik + rjk * rjk))
       * fcut_at Rc rij * fcut_at Rc rjk * fcut_at Rc rik).

(** C8.  A call of [fcut], [G1f] or [G4f] returns the namespace of the
    notebook as it received it, and its result is a function of the
    content of [Rcut] and of the arguments only, so two calls with the
    same arguments and the same [Rcut] return the same value.  For
    [Rcut = 5.0] these results are the ones of the functions used in the
    loops above. *)
Theorem C8_evaluators_pure :
  (forall g r,
      Globals.fcut r g = (inr (fcut_at (Globals.g_Rcut g) r), g)) /\
  (forall g x eta Rs,
      Globals.G1f x eta Rs g = (inr (G1f_at (Globals.g_Rcut g) x eta Rs), g)) /\
  (forall g cost rij rik rjk eta zeta lamb,
      Globals.G4f cost rij rik rjk eta zeta lamb g =
      (G4f_at (Globals.g_Rcut g) cost rij rik rjk eta zeta lamb, g)) /\
  (forall r, fcut_at Rcut r = Trimer.fcut r) /\
  (forall x eta Rs, G1f_at Rcut x eta Rs = Trimer.G1f x eta Rs) /\
  (forall cost rij rik rjk eta zeta lamb,
      G4f_at Rcut cost rij rik rjk eta zeta lamb =
      Trimer.G4f cost rij rik rjk eta zeta lamb).
Proof.
  repeat split.
  intros g cost rij rik rjk eta zeta lamb.
  unfold Globals.G4f, G4f_at, Globals.mbind, Globals.lift.
  destruct (math_pow 2 (1 - zeta)) as [e|a]; [reflexivity|].
  destruct (math_pow (1 + IZR lamb * cost) zeta) as [e|b]; reflexivity.
Qed.

(** * Further properties of the notebooks *)

(** ** Rigid motions of the whole system

    The trimer notebook announces that the descriptors are invariant
    under translations and rotations of the whole system.  A map of the
    positions that keeps the scalar products of the difference vectors
    is such a motion (or a reflection). *)












(** ** Bounds on the descriptors of the trimer notebook *)

Lemma Trimer_fcut_range (r : R) : 0 <= Trimer.fcut r <= 1.
Proof.
  unfold Trimer.fcut. pose proof (COS_bound (PI * r / Rcut)) as [H1 H2]. lra.
Qed.

Lemma Rsum_map_le {A : Type} (f g : A -> R) (l : list A) :
  (forall a, In a l -> f a <= g a) -> Rsum (map f l) <= Rsum (map g l).
Proof.
  induction l as [|a l IH]; intros H; simpl; [lra|].
  assert (f a <= g a) by (apply H; left; reflexivity).
  assert (Rsum (map f l) <= Rsum (map g l))
    by (apply IH; intros b Hb; apply H; right; exact Hb).
  lra.
Qed.

(** The number of atoms other than [i]. *)
Lemma Rsum_others (n i : nat) :
  (i < n)%nat ->
  Rsum (map (fun j => if (i =? j)%nat then 0 else 1) (range n)) = INR n - 1.
Proof.
  intros Hi.
  rewrite (Rsum_map_ext _ (fun j => 1 + - (if (i =? j)%nat then 1 else 0)))
    by (intros j _; destruct (i =? j)%nat; lra).
  rewrite Rsum_map_plus, Rsum_map_const.
  unfold range at 1. rewrite length_seq.
  rewrite (Rsum_map_ext _ (fun j => (if (i =? j)%nat then 1 else 0) * -1))
    by (intros j _; lra).
  rewrite Rsum_map_scal, (Rsum_row_only n i (fun _ => 1)) by exact Hi. lra.
Qed.

Lemma exp_nonpos_le_1 (y : R) : y <= 0 -> exp y <= 1.
Proof.
  intros [H|H].
  - left. rewrite <- exp_0. apply exp_increasing. exact H.
  - subst y. rewrite exp_0. lra.
Qed.

Lemma Trimer_G1f_range (x eta Rs : R) :
  0 <= Trimer.G1f x eta Rs /\
  (0 <= eta -> Trimer.G1f x eta Rs <= Trimer.fcut x).
Proof.
  rewrite Trimer_G1f_fcut.
  pose proof (Trimer_fcut_range x) as [Hf0 Hf1].
  pose proof (exp_pos (- eta * (x - Rs) * (x - Rs))) as He. split.
  - apply Rmult_le_pos; lra.
  - intros Heta.
    assert (Hle : exp (- eta * (x - Rs) * (x - Rs)) <= 1).
    { apply exp_nonpos_le_1.
      assert (0 <= eta * ((x - Rs) * (x - Rs)))
        by (apply Rmult_le_pos; [exact Heta | apply Rle_0_sqr]).
      lra. }
    rewrite <- (Rmult_1_l (Trimer.fcut x)) at 2.
    apply Rmult_le_compat_r; assumption.
Qed.

Lemma G0_term_range (atoms : list vec3) (i j : nat) :
  0 <= G0_term atoms i j <= if (i =? j)%nat then 0 else 1.
Proof.
  unfold G0_term. destruct (i =? j)%nat; [lra|].
  destruct (Rgt_dec (dist atoms i j) Rcut); [lra|].
  apply Trimer_fcut_range.
Qed.

Lemma G1_term_range (atoms : list vec3) (t : R * R) (i j : nat) :
  0 <= G1_term atoms t i j /\
  (0 <= fst t -> G1_term atoms t i j <= G0_term atoms i j).
Proof.
  unfold G1_term, G0_term. destruct (i =? j)%nat; [lra|].
  destruct (Rgt_dec (dist atoms i j) Rcut); [lra|].
  apply Trimer_G1f_range.
Qed.

(** X2.  [G0[i]] counts neighbours: it lies between 0 and the number of
    other atoms.  Every [G1[i,k]] is non-negative and, when eta is not
    negative, at most [G0[i]]. *)
Theorem X2_two_body_bounds (atoms : list vec3) (p : list (R * R)) :
  exists g M,
    Trimer.G0 (length atoms) atoms = inr g /\
    Trimer.G1 (length atoms) atoms p = inr M /\
    forall i, (i < length atoms)%nat ->
      0 <= nth i g 0 <= INR (length atoms) - 1 /\
      forall k eta Rs, nth_error p k = Some (eta, Rs) ->
        0 <= entry M i k /\ (0 <= eta -> entry M i k <= nth i g 0).
Proof.
  destruct (G0_closed (length atoms) atoms eq_refl) as (g & Eg & _ & Hg).
  destruct (G1_closed (length atoms) atoms p eq_refl) as (M & EM & _ & HM).
  exists g, M. split; [exact Eg|]. split; [exact EM|].
  intros i Hi. rewrite (Hg i Hi). split.
  - split.
    + apply Rsum_map_nonneg. intros j _. apply G0_term_range.
    + rewrite <- (Rsum_others (length atoms) i Hi).
      apply Rsum_map_le. intros j _. apply G0_term_range.
  - intros k eta Rs Hk.
    assert (Hlt : (k < length p)%nat).
    { apply nth_error_Some. rewrite Hk. discriminate. }
    rewrite (HM i k Hi Hlt), (nth_error_nth p k (0, 0) Hk). split.
    + apply Rsum_map_nonneg. intros j _. apply G1_term_range.
    + intros Heta. apply Rsum_map_le. intros j _.
      apply G1_term_range. exact Heta.
Qed.

(** ** Shape of the two cutoff functions *)

Lemma Dimer_fcut_range (r : R) : 0 <= Dimer.fcut r <= 1.
Proof.
  unfold Dimer.fcut. destruct (Rge_dec r Rcut); [lra|].
  apply Trimer_fcut_range.
Qed.

(** X4.  The cutoff function of the dimer notebook is a weight: it takes
    its values in [0, 1], is 1 at distance 0, does not increase with the
    distance, and is 0 at every distance [r >= Rcut]. *)
Theorem X4_dimer_fcut_shape :
  (forall r, 0 <= Dimer.fcut r <= 1) /\
  Dimer.fcut 0 = 1 /\
  (forall r1 r2, 0 <= r1 -> r1 <= r2 -> Dimer.fcut r2 <= Dimer.fcut r1) /\
  (forall r, r >= Rcut -> Dimer.fcut r = 0).
Proof.
  pose proof Rcut_pos as Hc.
  split; [exact Dimer_fcut_range|]. split.
  - rewrite Dimer_fcut_inside by exact Hc.
    replace (PI * 0 / Rcut) with 0 by (unfold Rdiv; ring).
    rewrite cos_0. lra.
  - split.
    + intros r1 r2 H1 H12.
      destruct (Rge_dec r2 Rcut) as [H2|H2].
      * rewrite (Dimer_fcut_beyond r2 H2). apply Dimer_fcut_range.
      * destruct H12 as [Hlt|Heq]; [|subst r2; lra].
        rewrite !fcut_agree by lra. left.
        apply Trimer_fcut_decreasing; lra.
    + exact Dimer_fcut_beyond.
Qed.

(** ** The dimer inside the trimer loops *)

Lemma G0_term_dimer (atoms : list vec3) (i j : nat) :
  i <> j -> G0_term atoms i j = Dimer.fcut (dist atoms i j).
Proof.
  intros Hij. unfold G0_term.
  destruct (Nat.eqb_spec i j) as [E|_]; [contradiction|].
  destruct (Rgt_dec (dist atoms i j) Rcut) as [Hgt|Hle].
  - symmetry. apply Dimer_fcut_beyond. lra.
  - symmetry. apply fcut_agree. lra.
Qed.

Lemma G1_term_dimer (atoms : list vec3) (t : R * R) (i j : nat) :
  i <> j ->
  G1_term atoms t i j = Dimer.G1f (dist atoms i j) (fst t) (snd t).
Proof.
  intros Hij. unfold G1_term, Dimer.G1f.
  destruct (Nat.eqb_spec i j) as [E|_]; [contradiction|].
  destruct (Rgt_dec (dist atoms i j) Rcut) as [Hgt|Hle].
  - rewrite Dimer_fcut_beyond by lra. ring.
  - rewrite fcut_agree by lra. apply Trimer_G1f_fcut.
Qed.

(** X6.  The shortcut of the dimer notebook is sound.  Put a dimer at
    distance [r] into the three-row array of the trimer loops, with the
    third atom further than [Rcut] from both: for parameters with
    [eta >= 0] the loops [G0] and [G1] give both atoms of the dimer the
    same descriptors, [fcut(r)] and [G1f(r, eta, Rs)] as the dimer
    notebook defines them, which are the entries of the row that the fill
    loop stores for the distance [r]; the third atom gets zeros. *)
Theorem X6_dimer_row_is_pair_descriptor
        (a b c : vec3) (params : list (R * R)) :
  let r := norm (vsub a b) in
  norm (vsub a c) > Rcut ->
  norm (vsub b c) > Rcut ->
  Forall (fun t => 0 <= fst t) params ->
  Trimer.G0 3 [a; b; c] = inr [Dimer.fcut r; Dimer.fcut r; 0] /\
  exists G1 acsf,
    Trimer.G1 3 [a; b; c] params = inr G1 /\
    Dimer.acsf_fill [r] params = inr acsf /\
    entry acsf 0 0 = Dimer.fcut r /\
    forall k, (k < length params)%nat ->
      entry G1 0 k = entry acsf 0 (1 + k) /\
      entry G1 1 k = entry acsf 0 (1 + k) /\
      entry G1 2 k = 0.
Proof.
  intros r Hac Hbc _.
  set (atoms := [a; b; c]).
  assert (D01 : dist atoms 0 1 = r) by reflexivity.
  assert (D10 : dist atoms 1 0 = r) by apply (norm_sym b a).
  assert (D02 : dist atoms 0 2 > Rcut) by exact Hac.
  assert (D12 : dist atoms 1 2 > Rcut) by exact Hbc.
  assert (D20 : dist atoms 2 0 > Rcut).
  { change (norm (vsub c a) > Rcut). rewrite (norm_sym c a). exact Hac. }
  assert (D21 : dist atoms 2 1 > Rcut).
  { change (norm (vsub c b) > Rcut). rewrite (norm_sym c b). exact Hbc. }
  destruct (G0_closed 3 atoms eq_refl) as (g & Eg & Hlen & Hg).
  destruct (G1_closed 3 atoms params eq_refl) as (M & EM & _ & HM).
  destruct (acsf_fill_closed [r] params) as (A & EA & _ & HA).
  split.
  - rewrite Eg. f_equal.
    destruct g as [|g0 [|g1 [|g2 [|g3 g]]]]; simpl in Hlen; try lia.
    pose proof (Hg 0%nat ltac:(lia)) as E0.
    pose proof (Hg 1%nat ltac:(lia)) as E1.
    pose proof (Hg 2%nat ltac:(lia)) as E2.
    unfold range in E0, E1, E2. simpl in E0, E1, E2.
    rewrite (G0_term_dimer atoms 0 1), (G0_term_far atoms 0 2), D01 in E0
      by (lia || assumption).
    rewrite (G0_term_dimer atoms 1 0), (G0_term_far atoms 1 2), D10 in E1
      by (lia || assumption).
    rewrite (G0_term_far atoms 2 0), (G0_term_far atoms 2 1) in E2
      by assumption.
    unfold G0_term in E0, E1, E2. simpl in E0, E1, E2.
    f_equal; [lra | f_equal; [lra | f_equal; lra]].
  - exists M, A. split; [exact EM|]. split; [exact EA|]. split.
    + rewrite (HA 0%nat 0%nat) by (simpl; lia). reflexivity.
    + intros k Hk.
      rewrite (HA 0%nat (1 + k)%nat) by (simpl; lia).
      rewrite !HM by (simpl; lia).
      set (t := nth k params (0, 0)).
      unfold range. simpl.
      rewrite (G1_term_dimer atoms t 0 1), (G1_term_far atoms t 0 2), D01
        by (lia || assumption).
      rewrite (G1_term_dimer atoms t 1 0), (G1_term_far atoms t 1 2), D10
        by (lia || assumption).
      rewrite (G1_term_far atoms t 2 0), (G1_term_far atoms t 2 1)
        by assumption.
      unfold G1_term. simpl. fold t.
      destruct t as [eta Rs]. simpl. repeat split; lra.
Qed.

Lemma X6_dimer_row_is_pair_descriptor_witness :
  Trimer.G0 3 [mk_vec3 0 0 0; mk_vec3 2.5 0 0; mk_vec3 10 0 0] =
  inr [Dimer.fcut 2.5; Dimer.fcut 2.5; 0].
Proof.
  assert (Hr : norm (vsub (mk_vec3 0 0 0) (mk_vec3 2.5 0 0)) = 2.5).
  { rewrite dist_on_x_axis, Rabs_pos_eq; lra. }
  assert (Hac : norm (vsub (mk_vec3 0 0 0) (mk_vec3 10 0 0)) > Rcut).
  { rewrite dist_on_x_axis, Rabs_pos_eq; unfold Rcut; lra. }
  assert (Hbc : norm (vsub (mk_vec3 2.5 0 0) (mk_vec3 10 0 0)) > Rcut).
  { rewrite dist_on_x_axis, Rabs_pos_eq; unfold Rcut; lra. }
  assert (Hp : Forall (fun t : R * R => 0 <= fst t) Dimer.params).
  { unfold Dimer.params. repeat (apply Forall_cons; [simpl; lra|]).
    apply Forall_nil. }
  rewrite <- Hr at 2 3.
  exact (proj1 (X6_dimer_row_is_pair_descriptor
                  (mk_vec3 0 0 0) (mk_vec3 2.5 0 0) (mk_vec3 10 0 0)
                  Dimer.params Hac Hbc Hp)).
Defined.

(** ** The Lennard-Jones energy of the dimer notebook *)

Module DimerEnergy.

(** [energy = numpy.power(dists/2,-12) - numpy.power(dists/2,-6) - 2] *)
Definition energy (dists : list R) : list R :=
  map (fun d => powerRZ (d / 2) (-12) - powerRZ (d / 2) (-6) - 2) dists.

End DimerEnergy.

Lemma LJ_value (d : R) :
  d <> 0 ->
  powerRZ (d / 2) (-12) - powerRZ (d / 2) (-6) - 2 =
  Rsqr (/ (d / 2) ^ 6 - 1 / 2) - 2.25.
Proof.
  intros Hd.
  assert (Hx : d / 2 <> 0) by (intros H; apply Hd; lra).
  replace (-12)%Z with (-6 + -6)%Z by reflexivity.
  rewrite powerRZ_add by exact Hx.
  change (powerRZ (d / 2) (-6)) with (/ (d / 2) ^ 6).
  unfold Rsqr. lra.
Qed.

(** X7.  The training energies are one per configuration, as many as the
    rows of [acsf].  For a distance [d >= 1], such as those of the
    notebook's grid, the energy is at least -2.25, the bottom of the
    Lennard-Jones well. *)
Theorem X7_energy_well (dists : list R) (params : list (R * R)) :
  length (DimerEnergy.energy dists) = length dists /\
  (exists acsf, Dimer.acsf_fill dists params = inr acsf /\
                nrows acsf = length (DimerEnergy.energy dists)) /\
  forall k d, nth_error dists k = Some d -> 1 <= d ->
    exists e, nth_error (DimerEnergy.energy dists) k = Some e /\
              -2.25 <= e.
Proof.
  split; [apply length_map|]. split.
  - destruct (acsf_fill_closed dists params) as (M & E & (_ & Hr & _) & _).
    exists M. split; [exact E|].
    unfold DimerEnergy.energy. rewrite length_map. exact Hr.
  - intros k d Hk Hd. eexists. split.
    + unfold DimerEnergy.energy. rewrite nth_error_map, Hk. reflexivity.
    + rewrite (LJ_value d) by lra.
      pose proof (Rle_0_sqr (/ (d / 2) ^ 6 - 1 / 2)) as Hsq. lra.
Qed.

Lemma X7_energy_well_witness :
  exists e, nth_error (DimerEnergy.energy [2]) 0 = Some e /\ -2.25 <= e.
Proof.
  destruct (proj2 (proj2 (X7_energy_well [2] Dimer.params)) 0%nat 2 eq_refl)
    as (e & He & Hle).
  - lra.
  - exists e. split; assumption.
Defined.

(** ** Sizes of the training and the validation set *)

Lemma split_firstn {A : Type} (data : list A) :
  let n := Z.of_nat (length data) in
  fst (Energy.split data) = firstn (Z.to_nat (Energy.samples n)) data /\
  snd (Energy.split data) =
  firstn (Z.to_nat (Energy.vsamples n))
         (skipn (Z.to_nat (Energy.samples n)) data).
Proof.
  intros n.
  destruct (samples_bounds n (Nat2Z.is_nonneg _)) as (Hs & Hv & Hsv).
  unfold Energy.split. simpl. fold n. split.
  - rewrite slice_inside by (fold n; lia). rewrite Z.sub_0_r. reflexivity.
  - rewrite slice_inside by (fold n; lia).
    replace (Energy.samples n + Energy.vsamples n - Energy.samples n)%Z
      with (Energy.vsamples n) by lia.
    reflexivity.
Qed.

(** X11.  The split of the energy-prediction notebook by dataset size:
    up to 9000 loaded rows all of them are training rows and the
    validation set is empty; from 10000 rows on there are exactly 9000
    training and 1000 validation rows; and every loaded row is used
    exactly when there are at most 10000 of them. *)
Theorem X11_split_sizes {A : Type} (data : list A) :
  let n := Z.of_nat (length data) in
  let train := fst (Energy.split data) in
  let valid := snd (Energy.split data) in
  ((n <= 9000)%Z -> train = data /\ valid = []) /\
  ((10000 <= n)%Z ->
   Z.of_nat (length train) = 9000%Z /\ Z.of_nat (length valid) = 1000%Z) /\
  (train ++ valid = data <-> (n <= 10000)%Z).
Proof.
  intros n train valid.
  destruct (split_firstn data) as [Et Ev]. fold train in Et. fold valid in Ev.
  fold n in Et, Ev.
  assert (Hn : Z.to_nat n = length data) by (unfold n; lia).
  split; [|split].
  - intros H.
    assert (Hs : Energy.samples n = n) by (unfold Energy.samples; lia).
    assert (Hv : Energy.vsamples n = 0%Z)
      by (unfold Energy.vsamples; rewrite Hs; lia).
    rewrite Et, Ev, Hs, Hv, Hn. split; [apply firstn_all | reflexivity].
  - intros H.
    assert (Hs : Energy.samples n = 9000%Z) by (unfold Energy.samples; lia).
    assert (Hv : Energy.vsamples n = 1000%Z)
      by (unfold Energy.vsamples; rewrite Hs; lia).
    rewrite Et, Ev, Hs, Hv, length_firstn, length_firstn, length_skipn. lia.
  - assert (Hlen : Z.of_nat (length (train ++ valid)) =
                   (Energy.samples n + Energy.vsamples n)%Z).
    { rewrite length_app, Et, Ev, length_firstn, length_firstn, length_skipn.
      unfold Energy.vsamples, Energy.samples. lia. }
    split.
    + intros H. rewrite H in Hlen. fold n in Hlen.
      unfold Energy.vsamples, Energy.samples in Hlen. lia.
    + intros H.
      assert (Hsv : Z.to_nat (Energy.vsamples n) =
                    (length data - Z.to_nat (Energy.samples n))%nat)
        by (unfold Energy.vsamples, Energy.samples; lia).
      rewrite Et, Ev, Hsv.
      rewrite (firstn_all2 (skipn _ data)) by (rewrite length_skipn; lia).
      apply firstn_skipn.
Qed.

(** ** The kernel-ridge-regression notebook: picking, shuffling, splitting *)

Module KRR.

(** [l[i]] for a Python integer [i]: a negative index counts from the
    end, an index outside the sequence raises [IndexError]. *)
Definition index {A : Type} (l : list A) (i : Z) : result A :=
  let len := Z.of_nat (length l) in
  if (i <? 0)%Z
  then if (i + len <? 0)%Z then raise IndexError
       else getitem l (Z.to_nat (i + len))
  else getitem l (Z.to_nat i).

(** [random.randint(a, b)] returns some integer [N] with
    [a <= N <= b]. *)
Definition randint (a b N : Z) : Prop := (a <= N <= b)%Z.

(** [rand_mol = random.randint(0, len(y)); x[rand_mol]], for the draw
    [rand_mol]. *)
Definition random_molecule {A : Type} (x : list A) (rand_mol : Z) : result A :=
  index x rand_mol.

(** [zip(x, y)] is [combine x y]; [random.shuffle] leaves the list in
    some order. *)
Definition shuffled {A : Type} (c c' : list A) : Prop := Permutation c c'.

(** [x, y = zip] of the unpacked list [c]: with no pair there is nothing
    to unpack. *)
Definition unzip {A B : Type} (c : list (A * B)) : result (list A * list B) :=
  match c with
  | [] => raise ValueError
  | _ :: _ => ret (map fst c, map snd c)
  end.

Definition n_train : Z := 2000.

Definition n_test : Z := 1000.

(** [x[0:n_train]] and [x[n_train:n_train + n_test]] *)
Definition split {A : Type} (x : list A) : list A * list A :=
  (Energy.slice x 0 n_train, Energy.slice x n_train (n_train + n_test)).

End KRR.

(** X12.  The cell that prints a random molecule draws its index with
    [random.randint(0, len(y))], whose upper bound is included: among the
    possible draws, [x[rand_mol]] raises [IndexError] for the draw
    [len(y)] and for no other, so the cell fails for one draw out of
    [len(y) + 1]. *)
Theorem X12_random_molecule_index {A : Type} (x : list A) (y : list R) :
  length x = length y ->
  KRR.randint 0 (Z.of_nat (length y)) (Z.of_nat (length y)) /\
  forall rand_mol, KRR.randint 0 (Z.of_nat (length y)) rand_mol ->
    (KRR.random_molecule x rand_mol = inl IndexError <->
     rand_mol = Z.of_nat (length y)) /\
    ((rand_mol < Z.of_nat (length y))%Z ->
     exists m, KRR.random_molecule x rand_mol = inr m /\
               nth_error x (Z.to_nat rand_mol) = Some m).
Proof.
  intros Hlen. split; [unfold KRR.randint; lia|].
  intros N [H0 H1]. unfold KRR.random_molecule, KRR.index.
  replace (N <? 0)%Z with false by (symmetry; apply Z.ltb_ge; lia).
  unfold getitem.
  destruct (nth_error x (Z.to_nat N)) as [m|] eqn:E.
  - assert (Hlt : (Z.to_nat N < length x)%nat)
      by (apply nth_error_Some; rewrite E; discriminate).
    split.
    + split; [discriminate | lia].
    + intros _. exists m. split; reflexivity.
  - apply nth_error_None in E. split.
    + split; [lia | reflexivity].
    + lia.
Qed.

Lemma X12_random_molecule_index_witness :
  KRR.random_molecule [10; 20; 30] 3 = inl IndexError.
Proof.
  apply (proj1 (proj2 (X12_random_molecule_index [10; 20; 30] [1; 2; 3] eq_refl)
                      3%Z ltac:(unfold KRR.randint; simpl; lia))).
  reflexivity.
Defined.

Lemma combine_fst_snd {A B : Type} (c : list (A * B)) :
  combine (map fst c) (map snd c) = c.
Proof.
  induction c as [|[a b] c IH]; simpl; [reflexivity|]. rewrite IH. reflexivity.
Qed.

Lemma map_fst_combine {A B : Type} (x : list A) (y : list B) :
  length x = length y -> map fst (combine x y) = x.
Proof.
  revert y. induction x as [|a x IH]; intros [|b y] H; simpl in *;
    try reflexivity; try discriminate.
  rewrite IH by lia. reflexivity.
Qed.

Lemma map_snd_combine {A B : Type} (x : list A) (y : list B) :
  length x = length y -> map snd (combine x y) = y.
Proof.
  revert y. induction x as [|a x IH]; intros [|b y] H; simpl in *;
    try reflexivity; try discriminate.
  rewrite IH by lia. reflexivity.
Qed.

(** X13.  Shuffling keeps every molecule with its own energy.  For any
    order [c'] that [random.shuffle] leaves the pairs in, the unpacked
    sequences [x'] and [y'] pair up to [c'] again, so [(x'[i], y'[i])] is
    always one of the original pairs; they have the length of the
    shorter input, and for inputs of equal length they are reorderings
    of [x] and of [y].  With no molecule at all the unpacking raises
    [ValueError]. *)
Theorem X13_shuffle_keeps_pairs {A B : Type}
        (x : list A) (y : list B) (c' : list (A * B)) :
  KRR.shuffled (combine x y) c' ->
  (x = [] \/ y = [] -> KRR.unzip c' = inl ValueError) /\
  (x <> [] -> y <> [] ->
   exists x' y',
     KRR.unzip c' = inr (x', y') /\
     combine x' y' = c' /\
     length x' = Nat.min (length x) (length y) /\
     length y' = Nat.min (length x) (length y) /\
     (forall i a b, nth_error x' i = Some a -> nth_error y' i = Some b ->
                    In (a, b) (combine x y)) /\
     (length x = length y -> Permutation x x' /\ Permutation y y')).
Proof.
  unfold KRR.shuffled. intros Hperm.
  pose proof (Permutation_length Hperm) as Hlen. rewrite length_combine in Hlen.
  split.
  - intros Hempty.
    assert (Hc : combine x y = []).
    { destruct Hempty as [-> | ->]; [reflexivity | destruct x; reflexivity]. }
    rewrite Hc in Hperm. apply Permutation_nil in Hperm. subst c'. reflexivity.
  - intros Hx Hy.
    destruct c' as [|pr c'].
    + exfalso. destruct x; [contradiction|]. destruct y; [contradiction|].
      simpl in Hlen. discriminate.
    + exists (map fst (pr :: c')), (map snd (pr :: c')).
      split; [reflexivity|]. split; [apply combine_fst_snd|].
      split; [rewrite length_map; lia|]. split; [rewrite length_map; lia|].
      split.
      * intros i a b Ha Hb.
        apply (Permutation_in _ (Permutation_sym Hperm)).
        rewrite nth_error_map in Ha, Hb.
        destruct (nth_error (pr :: c') i) as [[a0 b0]|] eqn:E;
          simpl in Ha, Hb; [|discriminate].
        inversion Ha. inversion Hb. subst.
        apply (nth_error_In _ _ E).
      * intros Heq. split.
        -- rewrite <- (map_fst_combine x y Heq) at 1.
           apply Permutation_map. exact Hperm.
        -- rewrite <- (map_snd_combine x y Heq) at 1.
           apply Permutation_map. exact Hperm.
Qed.

Lemma X13_shuffle_keeps_pairs_witness :
  exists x' y',
    KRR.unzip [(2, 20); (1, 10); (3, 30)] = inr (x', y') /\
    combine x' y' = [(2, 20); (1, 10); (3, 30)] /\
    Permutation [1; 2; 3] x' /\ Permutation [10; 20; 30] y'.
Proof.
  assert (Hp : KRR.shuffled (combine [1; 2; 3] [10; 20; 30])
                            [(2, 20); (1, 10); (3, 30)]).
  { unfold KRR.shuffled. simpl. apply perm_swap. }
  destruct (proj2 (X13_shuffle_keeps_pairs [1; 2; 3] [10; 20; 30] _ Hp))
    as (x' & y' & E & Hc & _ & _ & _ & Hxy); try discriminate.
  exists x', y'. split; [exact E|]. split; [exact Hc|].
  apply Hxy. reflexivity.
Defined.

Lemma slice_nonneg {A : Type} (a : list A) (lo hi : Z) :
  (0 <= lo <= hi)%Z ->
  Energy.slice a lo hi = firstn (Z.to_nat hi - Z.to_nat lo) (skipn (Z.to_nat lo) a).
Proof.
  intros H. unfold Energy.slice, Energy.clamp.
  replace (lo <? 0)%Z with false by (symmetry; apply Z.ltb_ge; lia).
  replace (hi <? 0)%Z with false by (symmetry; apply Z.ltb_ge; lia).
  set (len := Z.of_nat (length a)).
  assert (Hlen : Z.to_nat len = length a) by (unfold len; lia).
  destruct (Z.le_gt_cases len lo) as [Hge|Hlt].
  - rewrite !skipn_all2 by lia. rewrite !firstn_nil. reflexivity.
  - replace (Z.min lo len) with lo by lia.
    destruct (Z.le_gt_cases hi len) as [Hh|Hh].
    + replace (Z.min hi len) with hi by lia. f_equal. lia.
    + replace (Z.min hi len) with len by lia.
      rewrite !firstn_all2 by (rewrite length_skipn; lia). reflexivity.
Qed.

(** X14.  The split of the kernel-ridge-regression notebook asks for
    2000 training and 1000 test molecules without looking at the size of
    the dataset; slicing never raises, so a smaller dataset silently
    gives smaller sets: the training set holds the first
    [min(n, 2000)] molecules, the test set the next
    [min(n, 3000) - min(n, 2000)], none in common, and the test set is
    empty when there are at most 2000 molecules. *)
Theorem X14_krr_split {A : Type} (x : list A) :
  let n := Z.of_nat (length x) in
  let x_train := fst (KRR.split x) in
  let x_test := snd (KRR.split x) in
  x = x_train ++ x_test ++ skipn (Z.to_nat 3000) x /\
  Z.of_nat (length x_train) = Z.min n 2000 /\
  Z.of_nat (length x_test) = (Z.min n 3000 - Z.min n 2000)%Z /\
  ((n <= 2000)%Z -> x_train = x /\ x_test = []).
Proof.
  intros n x_train x_test.
  assert (Et : x_train = firstn (Z.to_nat 2000) x).
  { unfold x_train, KRR.split, KRR.n_train. simpl fst.
    rewrite slice_nonneg by lia. reflexivity. }
  assert (Ee : x_test = firstn (Z.to_nat 1000) (skipn (Z.to_nat 2000) x)).
  { unfold x_test, KRR.split, KRR.n_train, KRR.n_test. simpl snd.
    rewrite slice_nonneg by lia. reflexivity. }
  split; [|split; [|split]].
  - rewrite Et, Ee.
    replace (skipn (Z.to_nat 3000) x)
      with (skipn (Z.to_nat 1000) (skipn (Z.to_nat 2000) x))
      by (rewrite skipn_skipn; f_equal; lia).
    rewrite !firstn_skipn. reflexivity.
  - rewrite Et, length_firstn. unfold n. lia.
  - rewrite Ee, length_firstn, length_skipn. unfold n. lia.
  - intros Hn. rewrite Et, Ee. split.
    + apply firstn_all2. unfold n in Hn. lia.
    + rewrite skipn_all2 by (unfold n in Hn; lia). apply firstn_nil.
Qed.

(** ** The model function of the neural-network notebook *)

Module NN.

(** [random.random()] returns some float [u] with [0 <= u < 1]. *)
Definition random (u : R) : Prop := 0 <= u < 1.

(** [Model(p)], for the draw [u] of [random.random()]. *)
Definition Model (p : list R) (u : R) : result R :=
  x0 <- getitem p 0 ;;
  y0 <- getitem p 1 ;;
  x1 <- getitem p 0 ;;
  y1 <- getitem p 1 ;;
  let result := sin (0.4 * x0 - 0.3 * y0 + 0.2 * x1 * y1) in
  let result := result + (2 * u - 1) * 0.1 in
  ret result.

End NN.

Lemma sin_between (t : R) : 0 <= t -> - t <= sin t <= t.
Proof.
  intros [Hpos|Hz].
  - split; [|left; apply sin_lt_x; exact Hpos].
    destruct (Rle_lt_dec t PI) as [Hpi|Hpi].
    + assert (0 <= sin t) by (apply sin_ge_0; lra). lra.
    + pose proof (SIN_bound t) as [Hb _]. pose proof PI2_1. lra.
  - subst t. rewrite sin_0. lra.
Qed.

Lemma sin_abs_le (t : R) : Rabs (sin t) <= Rabs t.
Proof.
  destruct (Rle_lt_dec 0 t) as [Hpos|Hneg].
  - rewrite (Rabs_pos_eq t) by exact Hpos.
    apply Rabs_le. apply sin_between. exact Hpos.
  - rewrite (Rabs_left t) by exact Hneg.
    assert (H0 : 0 <= - t) by lra.
    pose proof (sin_between (- t) H0) as Hb. rewrite sin_neg in Hb.
    apply Rabs_le. lra.
Qed.

(** X15.  [Model] needs a point with two coordinates and raises
    [IndexError] on a shorter one.  Its value differs from
    [sin(0.4 x - 0.3 y + 0.2 x y)] by a noise of at most 0.1, so it lies
    in [-1.1, 1.1); for the points of the unit square, from which the
    notebook draws its training and validation inputs, it lies in
    [-1, 1), the range of the perfect-fit line of the plot. *)
Theorem X15_model_range (p : list R) (u : R) :
  NN.random u ->
  ((length p < 2)%nat -> NN.Model p u = inl IndexError) /\
  (forall x y rest, p = x :: y :: rest ->
     exists z, NN.Model p u = inr z /\
       Rabs (z - sin (0.4 * x - 0.3 * y + 0.2 * x * y)) <= 0.1 /\
       -1.1 <= z < 1.1 /\
       (Rabs x <= 1 -> Rabs y <= 1 -> -1 <= z < 1)).
Proof.
  intros [Hu0 Hu1]. split.
  - intros Hlen. destruct p as [|x [|y rest]]; simpl in Hlen; try lia;
      reflexivity.
  - intros x y rest ->. eexists. split; [reflexivity|].
    set (t := 0.4 * x - 0.3 * y + 0.2 * x * y).
    pose proof (SIN_bound t) as [Hs0 Hs1].
    split; [|split].
    + replace (sin t + (2 * u - 1) * 0.1 - sin t) with ((2 * u - 1) * 0.1) by ring.
      apply Rabs_le. lra.
    + lra.
    + intros Hx Hy.
      assert (Hx' : -1 <= x <= 1).
      { pose proof (Rle_abs x) as Ha. pose proof (Rle_abs (- x)) as Hb.
        rewrite Rabs_Ropp in Hb. lra. }
      assert (Hy' : -1 <= y <= 1).
      { pose proof (Rle_abs y) as Ha. pose proof (Rle_abs (- y)) as Hb.
        rewrite Rabs_Ropp in Hb. lra. }
      assert (Hxy : -1 <= x * y <= 1) by nra.
      assert (Ht : Rabs t <= 0.9) by (apply Rabs_le; unfold t; lra).
      pose proof (sin_abs_le t) as Hsin.
      assert (Hst : -0.9 <= sin t <= 0.9).
      { pose proof (Rle_abs (sin t)) as Ha. pose proof (Rle_abs (- sin t)) as Hb.
        rewrite Rabs_Ropp in Hb. lra. }
      lra.
Qed.

Lemma X15_model_range_witness :
  exists z, NN.Model [1; -1] 0.5 = inr z /\ -1 <= z < 1.
Proof.
  assert (Hu : NN.random 0.5) by (unfold NN.random; lra).
  destruct (proj2 (X15_model_range [1; -1] 0.5 Hu) 1 (-1) [] eq_refl)
    as (z & E & _ & _ & H).
  exists z. split; [exact E|].
  apply H; [rewrite Rabs_pos_eq; lra | rewrite Rabs_left; lra].
Defined.

(** ** The mean absolute error *)

Module Metrics.

(** [a - b] for one-dimensional arrays: arrays of the same length are
    subtracted entry by entry, an array of length 1 is broadcast, and any
    other pair of shapes raises [ValueError]. *)
Definition subtract (a b : list R) : result (list R) :=
  if (length a =? length b)%nat
  then ret (map (fun ab => fst ab - snd ab) (combine a b))
  else match a, b with
       | [x], _ => ret (map (fun y => x - y) b)
       | _, [y] => ret (map (fun x => x - y) a)
       | _, _ => raise ValueError
       end.

(** [(numpy.abs(pred - ref)).mean()] *)
Definition mean_abs_error (pred ref : list R) : result R :=
  d <- subtract pred ref ;;
  ret (mean (map Rabs d)).

End Metrics.

(** X17.  The mean absolute error printed by the notebooks, for a
    non-empty prediction and a reference of the same length: it is
    defined, it is not negative, it does not depend on which of the two
    arrays is the prediction, and it is 0 when the prediction equals the
    reference. *)
Theorem X17_mean_abs_error (pred ref : list R) :
  pred <> [] -> length pred = length ref ->
  exists e,
    Metrics.mean_abs_error pred ref = inr e /\
    Metrics.mean_abs_error ref pred = inr e /\
    0 <= e /\ (pred = ref -> e = 0).
Proof.
  intros Hne Hlen.
  unfold Metrics.mean_abs_error, Metrics.subtract.
  rewrite Hlen, Nat.eqb_refl. simpl bind.
  set (d := map (fun ab => fst ab - snd ab) (combine pred ref)).
  assert (Hd : length d = length pred).
  { unfold d. rewrite length_map, length_combine. lia. }
  assert (Hn : 0 < INR (length (map Rabs d))).
  { rewrite length_map, Hd. apply INR_length_pos. exact Hne. }
  assert (Hsum : 0 <= Rsum (map Rabs d)).
  { rewrite <- (map_id (map Rabs d)). apply Rsum_map_nonneg.
    intros y Hy. apply in_map_iff in Hy. destruct Hy as (z & <- & _).
    apply Rabs_pos. }
  assert (Hsym : map Rabs (map (fun ab => fst ab - snd ab) (combine ref pred))
                 = map Rabs d).
  { unfold d. clear - Hlen. revert ref Hlen.
    induction pred as [|x pred IH]; intros [|y ref] Hlen; simpl in *;
      try reflexivity; try discriminate.
    rewrite IH by lia. f_equal. apply Rabs_minus_sym. }
  exists (mean (map Rabs d)). split; [reflexivity|]. split.
  - rewrite Hsym. reflexivity.
  - split.
    + unfold mean. apply Rmult_le_pos; [exact Hsum|].
      left. apply Rinv_0_lt_compat. exact Hn.
    + intros Heq. subst ref. unfold mean.
      assert (Hs0 : Rsum (map Rabs d) = 0).
      { apply Rsum_map_zero. intros y Hy. unfold d in Hy.
        apply in_map_iff in Hy. destruct Hy as ([a b] & <- & Hab).
        simpl. clear - Hab.
        assert (a = b).
        { revert Hab. induction pred as [|x pred IH]; simpl; [tauto|].
          intros [H|H]; [inversion H; reflexivity | apply IH; exact H]. }
        subst b. replace (a - a) with 0 by ring. apply Rabs_R0. }
      rewrite Hs0. unfold Rdiv. ring.
Qed.

Lemma X17_mean_abs_error_witness :
  exists e, Metrics.mean_abs_error [1; 2] [1; 4] = inr e /\ 0 <= e.
Proof.
  destruct (X17_mean_abs_error [1; 2] [1; 4]) as (e & E & _ & H & _).
  - discriminate.
  - reflexivity.
  - exists e. split; assumption.
Defined.

(** ** An atom with no neighbour *)

(** X18.  An isolated atom has no environment: when every other atom is
    farther than [Rcut] from atom [i], [G0[i]] is 0 and every entry of
    the rows [G1[i]] and [G4[i]] is 0 (the positions being pairwise
    distinct and no exponent zeta negative, so that [G4] returns). *)
Theorem X18_isolated_atom
        (atoms : list vec3) (p1 : list (R * R)) (p4 : list (R * Z * Z))
        (i : nat) :
  NoDup atoms ->
  Forall (fun t => (0 <= zeta_of t)%Z) p4 ->
  (i < length atoms)%nat ->
  (forall j, (j < length atoms)%nat -> j <> i -> dist atoms i j > Rcut) ->
  exists g G1 G4,
    Trimer.G0 (length atoms) atoms = inr g /\
    Trimer.G1 (length atoms) atoms p1 = inr G1 /\
    Trimer.G4 (length atoms) atoms p4 = inr G4 /\
    nth i g 0 = 0 /\
    (forall k, (k < length p1)%nat -> entry G1 i k = 0) /\
    (forall q, (q < length p4)%nat -> entry G4 i q = 0).
Proof.
  intros Hnd Hz Hi Hfar.
  destruct (G0_closed (length atoms) atoms eq_refl) as (g & Eg & _ & Hg).
  destruct (G1_closed (length atoms) atoms p1 eq_refl) as (M1 & E1 & _ & H1).
  destruct (G4_closed (length atoms) atoms p4 eq_refl Hnd Hz)
    as (M4 & E4 & _ & H4).
  exists g, M1, M4. repeat (split; [assumption|]).
  assert (Hcase : forall j, In j (range (length atoms)) ->
            j = i \/ dist atoms i j > Rcut).
  { intros j Hj. apply in_seq in Hj.
    destruct (Nat.eq_dec j i) as [E|E]; [left; exact E|].
    right. apply Hfar; [lia | exact E]. }
  split; [|split].
  - rewrite (Hg i Hi). apply Rsum_map_zero. intros j Hj.
    destruct (Hcase j Hj) as [-> | Hd].
    + unfold G0_term. rewrite Nat.eqb_refl. reflexivity.
    + apply G0_term_far. exact Hd.
  - intros k Hk. rewrite (H1 i k Hi Hk). apply Rsum_map_zero. intros j Hj.
    destruct (Hcase j Hj) as [-> | Hd].
    + unfold G1_term. rewrite Nat.eqb_refl. reflexivity.
    + apply G1_term_far. exact Hd.
  - intros q Hq. rewrite (H4 i q Hi Hq). apply Rsum_map_zero. intros j Hj.
    apply Rsum_map_zero. intros k _.
    destruct (Hcase j Hj) as [-> | Hd].
    + apply G4_term_diag.
    + apply G4_term_far_ij. exact Hd.
Qed.

Lemma X18_isolated_atom_witness :
  exists G4,
    Trimer.G4 3 far_atoms Trimer.p_G4 = inr G4 /\
    forall q, (q < 5)%nat -> entry G4 2 q = 0.
Proof.
  assert (Hfar : forall j, (j < length far_atoms)%nat -> j <> 2%nat ->
                           dist far_atoms 2 j > Rcut).
  { intros j Hj Hne. unfold dist, pos.
    destruct j as [|[|[|j]]]; simpl in Hj; try lia; simpl;
      rewrite dist_on_x_axis, Rcut_val.
    - rewrite Rabs_left; lra.
    - rewrite Rabs_left; lra. }
  destruct (X18_isolated_atom far_atoms Trimer.p_G1 Trimer.p_G4 2
              far_atoms_NoDup p_G4_zeta_nonneg ltac:(simpl; lia) Hfar)
    as (g & M1 & M4 & _ & _ & E4 & _ & _ & H4).
  exists M4. split; [exact E4 | exact H4].
Defined.

(** ** The descriptor files of the energy-prediction notebook *)

From Stdlib Require String Ascii.

Module Files.

Import String Ascii.

(** [s.split(sep)] for a separator of one character: the pieces between
    the separators, at least one piece. *)
Fixpoint split (sep : ascii) (s : string) : list string :=
  match s with
  | EmptyString => [EmptyString]
  | String c s' =>
      if Ascii.eqb c sep then EmptyString :: split sep s'
      else match split sep s' with
           | [] => [String c EmptyString]
           | piece :: pieces => String c piece :: pieces
           end
  end.

(** [sep.join(pieces)] *)
Fixpoint join (sep : ascii) (pieces : list string) : string :=
  match pieces with
  | [] => EmptyString
  | [piece] => piece
  | piece :: pieces' => append piece (String sep (join sep pieces'))
  end.

Definition dot_char : ascii := Ascii.ascii_of_nat 46.

(** ["./data/descriptor." + stem + ".txt"] *)
Definition descriptor_path (stem : string) : string :=
  append "./data/descriptor." (append stem ".txt").

(** The path with [stem = TYPE.split('.')[0]]. *)
Definition descriptor_file (TYPE : string) : result string :=
  stem <- getitem (split dot_char TYPE) 0 ;;
  ret (descriptor_path stem).

(** ["./data/energy.input." + TYPE + ".npz"] *)
Definition input_file (TYPE : string) : string :=
  append "./data/energy.input." (append TYPE ".npz").

(** The character [c] occurs in [s]. *)
Fixpoint occurs (c : ascii) (s : string) : bool :=
  match s with
  | EmptyString => false
  | String d s' => Ascii.eqb d c || occurs c s'
  end.

End Files.

Lemma split_nonempty (sep : Ascii.ascii) (s : String.string) :
  Files.split sep s <> [].
Proof.
  destruct s as [|c s]; simpl; [discriminate|].
  destruct (Ascii.eqb c sep); [discriminate|].
  destruct (Files.split sep s); discriminate.
Qed.

Lemma join_split (sep : Ascii.ascii) (s : String.string) :
  Files.join sep (Files.split sep s) = s.
Proof.
  induction s as [|c s IH]; [reflexivity|].
  simpl. destruct (Ascii.eqb c sep) eqn:E.
  - apply Ascii.eqb_eq in E. subst c.
    pose proof (split_nonempty sep s) as Hne.
    destruct (Files.split sep s) as [|piece pieces] eqn:Es; [contradiction|].
    change (Files.join sep (String.EmptyString :: piece :: pieces))
      with (String.String sep (Files.join sep (piece :: pieces))).
    rewrite IH. reflexivity.
  - pose proof (split_nonempty sep s) as Hne.
    destruct (Files.split sep s) as [|piece pieces] eqn:Es; [contradiction|].
    destruct pieces as [|piece' pieces].
    + simpl in *. rewrite IH. reflexivity.
    + change (Files.join sep (String.String c piece :: piece' :: pieces))
        with (String.String c (Files.join sep (piece :: piece' :: pieces))).
      rewrite IH. reflexivity.
Qed.

Lemma split_head (sep : Ascii.ascii) (s : String.string) :
  exists stem pieces,
    Files.split sep s = stem :: pieces /\
    Files.occurs sep stem = false /\
    (Files.occurs sep s = false -> stem = s /\ pieces = []) /\
    (Files.occurs sep s = true -> pieces <> []).
Proof.
  induction s as [|c s IH].
  - exists String.EmptyString, []. simpl.
    split; [reflexivity|]. split; [reflexivity|].
    split; [intros _; split; reflexivity | discriminate].
  - destruct IH as (stem & pieces & Es & Hstem & Hno & Hyes).
    simpl. destruct (Ascii.eqb c sep) eqn:E.
    + exists String.EmptyString, (Files.split sep s). simpl.
      split; [reflexivity|]. split; [reflexivity|].
      split; [discriminate | intros _; apply split_nonempty].
    + rewrite Es. exists (String.String c stem), pieces. simpl. rewrite E.
      simpl. split; [reflexivity|]. split; [exact Hstem|].
      split; [|exact Hyes].
      intros H. destruct (Hno H) as [-> ->]. split; reflexivity.
Qed.

(** X19.  The name of the descriptor file never fails to be built and
    depends only on the part of [TYPE] before its first dot, which
    itself contains no dot: a [TYPE] without a dot is used whole, and two
    types with the same first part (the SOAP variants) name the same
    file although their input files differ.  Joining the pieces of
    [TYPE.split('.')] with dots gives [TYPE] back. *)
Theorem X19_descriptor_file (TYPE : String.string) :
  Files.join Files.dot_char (Files.split Files.dot_char TYPE) = TYPE /\
  exists stem pieces,
    Files.split Files.dot_char TYPE = stem :: pieces /\
    Files.descriptor_file TYPE = inr (Files.descriptor_path stem) /\
    Files.occurs Files.dot_char stem = false /\
    (Files.occurs Files.dot_char TYPE = false -> stem = TYPE) /\
    (forall TYPE', Files.split Files.dot_char TYPE' = stem :: pieces ->
                   TYPE' = TYPE) /\
    (forall suffix,
        Files.occurs Files.dot_char TYPE = false ->
        Files.descriptor_file
          (String.append TYPE (String.String Files.dot_char suffix))
        = Files.descriptor_file TYPE).
Proof.
  split; [apply join_split|].
  destruct (split_head Files.dot_char TYPE)
    as (stem & pieces & Es & Hstem & Hno & _).
  exists stem, pieces. split; [exact Es|]. split.
  - unfold Files.descriptor_file. rewrite Es. reflexivity.
  - split; [exact Hstem|]. split; [intros H; apply (Hno H)|]. split.
    + intros TYPE' Es'.
      rewrite <- (join_split Files.dot_char TYPE'), Es', <- Es.
      apply join_split.
    + intros suffix H. unfold Files.descriptor_file.
      destruct (Hno H) as [-> ->] .
      assert (E : exists rest,
                 Files.split Files.dot_char
                   (String.append TYPE (String.String Files.dot_char suffix))
                 = TYPE :: rest).
      { clear Es Hstem Hno. induction TYPE as [|c s IH].
        - eexists. reflexivity.
        - simpl in H. apply orb_false_iff in H. destruct H as [Hc Hs].
          destruct (IH Hs) as (rest & Er).
          simpl. rewrite Hc, Er. eexists. reflexivity. }
      destruct E as (rest & Er). rewrite Er, Es. reflexivity.
Qed.
